(** * Huffman tree construction over an array-backed min-heap

    A shallow embedding of [Untitled-2.c]: the node constructor, the
    binary min-heap ([heapify], [pop], [insert], [build_min_heap]) and the
    Huffman builder ([create_and_build_min_heap], [build_huffman_tree]),
    followed by the properties the specification states about them.

    Conventions of the embedding.
    - A C [int] is a [Z] in [INT_MIN..INT_MAX]; signed arithmetic that
      leaves the range has no defined result.  A C [unsigned] is a [Z]
      reduced modulo [2^32].
    - A computation returns [Ret v], or has no defined behaviour
      ([Undefined f], with the fault that caused it).  Loops and the
      recursion of [heapify] are written with a fuel argument that the
      caller derives from the heap; [build_huffman_tree_total] and the
      lemmas before it show that the fuel is never used up.
    - A pointer to a node is modelled by the node itself: a node is never
      written again once it is linked under a parent or stored in the heap.
      [left_p]/[right_p] hold [None] for [NULL].  A slot of the heap array
      that was never written holds [Junk].
    - The header [min_heap.h], which declares [node_t] and [min_heap_t], is
      not part of the source; the two types are modelled below from the
      fields the functions use.  [create_heap] names the array [heap_pp]
      and returns [minHeap]; every other function calls the array [array],
      and the only heap in scope is [heap_p], so these are read as [array]
      and [heap_p].  [heapify] declares its heap parameter as [node_t *]
      and [pop] its result as [min_heap_t *]; they are used as a heap and
      as a node pointer.  The macro [MAX_HEAP_SIZE] is never used.
    - [malloc] is taken to succeed. *)

From Stdlib Require Import ZArith Lia Ascii String.
From stdpp Require Import base list sorting.

Open Scope Z_scope.

(** ** C integers *)

Definition INT_MIN : Z := -2147483648.
Definition INT_MAX : Z := 2147483647.
Definition UINT_MAX : Z := 4294967295.

(** Conversion to [unsigned], and unsigned addition: both wrap. *)
Definition to_unsigned (z : Z) : Z := z mod (UINT_MAX + 1).
Definition uadd (a b : Z) : Z := to_unsigned (a + b).

(** ** Outcomes *)

Inductive fault :=
| OutOfBounds (i : Z)   (* array access at an index outside the storage *)
| Indeterminate         (* dereference of a pointer that was never set *)
| SignedOverflow.       (* int arithmetic leaving INT_MIN..INT_MAX *)

Inductive outcome (A : Type) :=
| Ret (a : A)
| Undefined (f : fault)
| OutOfFuel.
Arguments Ret {A} a.
Arguments Undefined {A} f.
Arguments OutOfFuel {A}.

#[global] Instance outcome_ret : MRet outcome := @Ret.
#[global] Instance outcome_bind : MBind outcome := fun A B k m =>
  match m with
  | Ret a => k a
  | Undefined f => Undefined f
  | OutOfFuel => OutOfFuel
  end.

(** The value of an [int] expression. *)
Definition int (z : Z) : outcome Z :=
  if decide (INT_MIN ≤ z ≤ INT_MAX) then Ret z else Undefined SignedOverflow.

(** [a[i]] as an rvalue and [a[i] = x], on an array of [length a] elements. *)
Definition read {A} (a : list A) (i : Z) : outcome A :=
  if decide (0 ≤ i) then
    match a !! Z.to_nat i with
    | Some x => Ret x
    | None => Undefined (OutOfBounds i)
    end
  else Undefined (OutOfBounds i).

Definition write {A} (a : list A) (i : Z) (x : A) : outcome (list A) :=
  if decide (0 ≤ i < Z.of_nat (length a)) then Ret (<[Z.to_nat i := x]> a)
  else Undefined (OutOfBounds i).

(** ** Data *)

(** Modelled from the spec: the declaration of [node_t] in [min_heap.h].
    A node has a symbol, a weight and two children; the fields carry the
    names the functions use.  [freq] is [unsigned], the type of the
    parameter [new_node] stores in it.  [item] is [None] while the field
    holds whatever [malloc] returned. *)
#[warnings="-register-all"]
Inductive node_t := Node {
  item : option ascii;
  freq : Z;
  left_p : option node_t;
  right_p : option node_t
}.

Inductive slot := Junk | Ptr (n : node_t).

(** Modelled from the spec: the declaration of [min_heap_t] in
    [min_heap.h].  A heap has its slots, a [size] and a [capacity].  [size]
    is [int]: it receives the [int] parameter of
    [create_and_build_min_heap] and is compared with [int] indices;
    [capacity] is [unsigned], the type of the parameter of [create_heap]. *)
Record min_heap_t := Heap {
  size : Z;
  capacity : Z;
  array : list slot
}.

Definition set_array (heap_p : min_heap_t) (a : list slot) : min_heap_t :=
  Heap (size heap_p) (capacity heap_p) a.

(** [t->left_p = l] and [t->right_p = r] on a node not yet linked. *)
Definition set_left_p (t l : node_t) : node_t :=
  {| item := item t; freq := freq t; left_p := Some l; right_p := right_p t |}.
Definition set_right_p (t r : node_t) : node_t :=
  {| item := item t; freq := freq t; left_p := left_p t; right_p := Some r |}.

(** [p->freq] for a pointer read from the array. *)
Definition deref (p : slot) : outcome node_t :=
  match p with
  | Ptr n => Ret n
  | Junk => Undefined Indeterminate
  end.

(** [heap_p->array[i]->freq] *)
Definition freq_at (a : list slot) (i : Z) : outcome Z :=
  p ← read a i; n ← deref p; Ret (freq n).

(** ** The functions of the source *)

(** [new_node]: the statement [temp->item - item;] evaluates a difference
    and discards it, so [item] is never assigned.  The argument [freq] is
    converted to the parameter type [unsigned]. *)
Definition new_node (item : ascii) (freq : Z) : node_t :=
  {| item := None; freq := to_unsigned freq; left_p := None; right_p := None |}.

Definition create_heap (capacity : Z) : min_heap_t :=
  let capacity := to_unsigned capacity in
  {| size := 0; capacity := capacity;
     array := replicate (Z.to_nat capacity) Junk |}.

(** [swap_node(&array[a], &array[b])] *)
Definition swap_node (arr : list slot) (a b : Z) : outcome (list slot) :=
  t ← read arr a;
  vb ← read arr b;
  arr ← write arr a vb;
  write arr b t.

Fixpoint heapify_rec (fuel : nat) (heap_p : min_heap_t) (index : Z)
  : outcome min_heap_t :=
  match fuel with
  | O => OutOfFuel
  | S fuel =>
    let smallest := index in
    l2 ← int (2 * index); left ← int (l2 + 1);
    r2 ← int (2 * index); right ← int (r2 + 2);
    smallest ←
      (if decide (left < size heap_p) then
         fl ← freq_at (array heap_p) left;
         fs ← freq_at (array heap_p) smallest;
         Ret (if decide (fl < fs) then left else smallest)
       else Ret smallest);
    smallest ←
      (if decide (right < size heap_p) then
         fr ← freq_at (array heap_p) right;
         fs ← freq_at (array heap_p) smallest;
         Ret (if decide (fr < fs) then right else smallest)
       else Ret smallest);
    if decide (smallest ≠ index) then
      arr ← swap_node (array heap_p) smallest index;
      heapify_rec fuel (set_array heap_p arr) smallest
    else Ret heap_p
  end.

(** A call recurses only into a child below [size], so [size - index]
    bounds the depth. *)
Definition heapify (heap_p : min_heap_t) (index : Z) : outcome min_heap_t :=
  heapify_rec (S (Z.to_nat (size heap_p - index))) heap_p index.

Definition check_size (heap_p : min_heap_t) : bool :=
  bool_decide (size heap_p = 1).

(** [pop] returns the pointer it read from slot 0 together with the heap
    it leaves behind. *)
Definition pop (heap_p : min_heap_t) : outcome (min_heap_t * slot) :=
  temp ← read (array heap_p) 0;
  last_i ← int (size heap_p - 1);
  last ← read (array heap_p) last_i;
  arr ← write (array heap_p) 0 last;
  sz ← int (size heap_p - 1);
  heap_p ← heapify (Heap sz (capacity heap_p) arr) 0;
  Ret (heap_p, temp).

Fixpoint insert_loop (fuel : nat) (arr : list slot) (node_p : node_t) (i : Z)
  : outcome (list slot * Z) :=
  match fuel with
  | O => OutOfFuel
  | S fuel =>
    if decide (i ≠ 0) then
      i1 ← int (i - 1);
      fp ← freq_at arr (i1 `quot` 2);
      if decide (freq node_p < fp) then
        parent ← read arr (i1 `quot` 2);
        arr ← write arr i parent;
        insert_loop fuel arr node_p (i1 `quot` 2)
      else Ret (arr, i)
    else Ret (arr, i)
  end.

Definition insert (heap_p : min_heap_t) (node_p : node_t) : outcome min_heap_t :=
  sz ← int (size heap_p + 1);
  i ← int (sz - 1);
  '(arr, i) ← insert_loop (S (Z.to_nat i)) (array heap_p) node_p i;
  arr ← write arr i (Ptr node_p);
  Ret (Heap sz (capacity heap_p) arr).

Fixpoint build_min_heap_loop (fuel : nat) (heap_p : min_heap_t) (i : Z)
  : outcome min_heap_t :=
  match fuel with
  | O => OutOfFuel
  | S fuel =>
    if decide (i >= 0) then
      heap_p ← heapify heap_p i;
      i ← int (i - 1);
      build_min_heap_loop fuel heap_p i
    else Ret heap_p
  end.

Definition build_min_heap (heap_p : min_heap_t) : outcome min_heap_t :=
  n ← int (size heap_p - 1);
  n1 ← int (n - 1);
  let i := n1 `quot` 2 in
  build_min_heap_loop (S (Z.to_nat (i + 1))) heap_p i.

Definition is_leaf (root_p : node_t) : bool :=
  negb (bool_decide (is_Some (left_p root_p)))
  && negb (bool_decide (is_Some (right_p root_p))).

Fixpoint fill_loop (fuel : nat) (arr : list slot)
    (item : list ascii) (freq : list Z) (size i : Z) : outcome (list slot) :=
  match fuel with
  | O => OutOfFuel
  | S fuel =>
    if decide (i < size) then
      c ← read item i;
      f ← read freq i;
      arr ← write arr i (Ptr (new_node c f));
      i ← int (i + 1);
      fill_loop fuel arr item freq size i
    else Ret arr
  end.

Definition create_and_build_min_heap
    (item : list ascii) (freq : list Z) (size : Z) : outcome min_heap_t :=
  let heap_p := create_heap size in
  arr ← fill_loop (S (Z.to_nat size)) (array heap_p) item freq size 0;
  build_min_heap (Heap size (capacity heap_p) arr).

(** One iteration of the [while] loop of [build_huffman_tree]. *)
Definition merge_step (heap_p : min_heap_t) : outcome min_heap_t :=
  '(heap_p, l_p) ← pop heap_p;
  '(heap_p, r_p) ← pop heap_p;
  l ← deref l_p;
  r ← deref r_p;
  let top_p := new_node "$" (uadd (freq l) (freq r)) in
  let top_p := set_left_p top_p l in
  let top_p := set_right_p top_p r in
  insert heap_p top_p.

Fixpoint huffman_loop (fuel : nat) (heap_p : min_heap_t) : outcome slot :=
  match fuel with
  | O => OutOfFuel
  | S fuel =>
    if negb (check_size heap_p) then
      heap_p ← merge_step heap_p;
      huffman_loop fuel heap_p
    else
      '(_, root) ← pop heap_p;
      Ret root
  end.

(** Each iteration lowers [size] by one, and a heap whose [size] is below
    one makes [pop] fault, so [size] bounds the number of iterations. *)
Definition huffman_while (heap_p : min_heap_t) : outcome slot :=
  huffman_loop (S (Z.to_nat (size heap_p))) heap_p.

Definition build_huffman_tree
    (item : list ascii) (freq : list Z) (size : Z) : outcome slot :=
  heap_p ← create_and_build_min_heap item freq size;
  huffman_while heap_p.

(** The entry point of the specification, [build(symbols)], on a sequence
    of (symbol, frequency) pairs: the C function receives the two columns
    and their common length. *)
Definition build (symbols : list (ascii * Z)) : outcome slot :=
  build_huffman_tree (symbols.*1) (symbols.*2) (Z.of_nat (length symbols)).

(** ** Derived notions used by the statements *)

(** The largest heap whose index arithmetic stays within [int]: [heapify]
    computes [2 * index + 2] for every index it visits. *)
Definition MAX_SLOTS : Z := 1073741823.

(** The slots in use. *)
Definition contents (heap_p : min_heap_t) : list slot :=
  take (Z.to_nat (size heap_p)) (array heap_p).

Definition is_ptr (p : slot) : Prop := ∃ n, p = Ptr n.

#[global] Instance is_ptr_dec p : Decision (is_ptr p).
Proof.
  destruct p as [|n]; [right; intros [? [=]] | left; by exists n].
Defined.

(** A heap as the data model describes it: [0 <= size <= capacity], the
    array has [capacity] slots, at most [MAX_SLOTS] of them, and every slot
    below [size] holds a node. *)
Definition valid (heap_p : min_heap_t) : Prop :=
  0 ≤ size heap_p ≤ Z.of_nat (length (array heap_p))
  ∧ capacity heap_p = Z.of_nat (length (array heap_p))
  ∧ Z.of_nat (length (array heap_p)) ≤ MAX_SLOTS
  ∧ Forall is_ptr (contents heap_p).

(** The heap property of the data model, on the slots below [size]. *)
Definition heap_property (heap_p : min_heap_t) : Prop :=
  ∀ i c n m,
    0 ≤ i → c = 2 * i + 1 ∨ c = 2 * i + 2 → c < size heap_p →
    read (array heap_p) i = Ret (Ptr n) →
    read (array heap_p) c = Ret (Ptr m) →
    freq n ≤ freq m.

(** The leaves [create_and_build_min_heap] allocates, in input order. *)
Definition leaf_slots (symbols : list (ascii * Z)) : list slot :=
  (fun p => Ptr (new_node p.1 p.2)) <$> symbols.

(** The weight a slot carries. *)
Definition weight (p : slot) : Z :=
  match p with
  | Ptr n => freq n
  | Junk => 0
  end.

(** The full-array scan that checks the heap property. *)
Definition heap_scan (heap_p : min_heap_t) : bool :=
  forallb (fun c : nat =>
    match array heap_p !! ((c - 1) / 2)%nat, array heap_p !! c with
    | Some (Ptr n), Some (Ptr m) => bool_decide (freq n ≤ freq m)
    | _, _ => true
    end) (seq 1 (Z.to_nat (size heap_p) - 1)).

(** Leaves, internal nodes and the sum of the leaf weights of a tree. *)
Fixpoint leaves (t : node_t) : nat :=
  match t with
  | Node _ _ l r =>
    if is_leaf t then 1%nat
    else (match l with Some l => leaves l | None => 0 end
          + match r with Some r => leaves r | None => 0 end)%nat
  end.

Fixpoint internal_nodes (t : node_t) : nat :=
  match t with
  | Node _ _ l r =>
    if is_leaf t then 0%nat
    else S (match l with Some l => internal_nodes l | None => 0 end
            + match r with Some r => internal_nodes r | None => 0 end)%nat
  end.

Fixpoint leaf_weight_sum (t : node_t) : Z :=
  match t with
  | Node _ w l r =>
    if is_leaf t then w
    else match l with Some l => leaf_weight_sum l | None => 0 end
         + match r with Some r => leaf_weight_sum r | None => 0 end
  end.

(** The cost of a tree: the sum over its leaves of weight times depth. *)
Fixpoint weighted_depth (d : Z) (t : node_t) : Z :=
  match t with
  | Node _ w l r =>
    if is_leaf t then w * d
    else match l with Some l => weighted_depth (d + 1) l | None => 0 end
         + match r with Some r => weighted_depth (d + 1) r | None => 0 end
  end.

(** The node [merge_step] allocates and links for the popped [l] and [r]. *)
Definition merge_node (l r : node_t) : node_t :=
  {| item := None; freq := uadd (freq l) (freq r);
     left_p := Some l; right_p := Some r |}.

(** The sum of [f] over a list. *)
Definition total {A} (f : A → Z) (l : list A) : Z :=
  foldr (fun x s => f x + s) 0 l.

Definition slot_leaves (p : slot) : Z :=
  match p with Ptr t => Z.of_nat (leaves t) | Junk => 0 end.
Definition slot_internal_nodes (p : slot) : Z :=
  match p with Ptr t => Z.of_nat (internal_nodes t) | Junk => 0 end.

Definition slot_leaf_weight_sum (p : slot) : Z :=
  match p with Ptr t => leaf_weight_sum t | Junk => 0 end.

(** Every internal node carries the [unsigned] sum of its children's
    weights; and the same with the sum taken in the integers. *)
Fixpoint sums_children (t : node_t) : Prop :=
  match t with
  | Node _ w (Some l) (Some r) =>
    w = uadd (freq l) (freq r) ∧ sums_children l ∧ sums_children r
  | _ => True
  end.

Fixpoint adds_children (t : node_t) : Prop :=
  match t with
  | Node _ w (Some l) (Some r) =>
    w = freq l + freq r ∧ adds_children l ∧ adds_children r
  | _ => True
  end.

(** The heap after [k] iterations of the loop of [build_huffman_tree]. *)
Fixpoint merge_steps (k : nat) (heap_p : min_heap_t) : outcome min_heap_t :=
  match k with
  | O => Ret heap_p
  | S k => heap_p ← merge_step heap_p; merge_steps k heap_p
  end.

(** [k] successive calls of [pop], with the pointers they return in order. *)
Fixpoint pop_many (k : nat) (heap_p : min_heap_t)
  : outcome (min_heap_t * list slot) :=
  match k with
  | O => Ret (heap_p, [])
  | S k =>
    '(heap_p, p) ← pop heap_p;
    '(heap_p, ps) ← pop_many k heap_p;
    Ret (heap_p, p :: ps)
  end.

(** ** Sample inputs *)

Definition leaf (w : Z) : node_t :=
  {| item := None; freq := w; left_p := None; right_p := None |}.

(** The frequency table of the specification's concrete scenario. *)
Definition sample_symbols : list (ascii * Z) :=
  [("a"%char, 5); ("b"%char, 9); ("c"%char, 12);
   ("d"%char, 13); ("e"%char, 16); ("f"%char, 45)].

(** Three symbols whose frequencies add up to more than [UINT_MAX]. *)
Definition wrap_symbols : list (ascii * Z) :=
  [("a"%char, INT_MAX); ("b"%char, INT_MAX); ("c"%char, INT_MAX)].

(** A heap of three nodes in four slots, and one whose root is above two
    children of equal weight. *)
Definition sample_heap : min_heap_t :=
  {| size := 3; capacity := 4;
     array := [Ptr (leaf 5); Ptr (leaf 9); Ptr (leaf 5); Junk] |}.

Definition tie_heap : min_heap_t :=
  {| size := 3; capacity := 3;
     array := [Ptr (leaf 7); Ptr (leaf 3); Ptr (leaf 3)] |}.

(** A heap whose only slot is in use. *)
Definition full_heap : min_heap_t :=
  {| size := 1; capacity := 1; array := [Ptr (leaf 3)] |}.

(** ** Further notions: sequences of insertions, shapes of trees *)

(** [insert] called for each node of a list in turn. *)
Fixpoint insert_many (xs : list node_t) (heap_p : min_heap_t)
  : outcome min_heap_t :=
  match xs with
  | [] => Ret heap_p
  | x :: xs => heap_p ← insert heap_p x; insert_many xs heap_p
  end.

(** The leaves of a tree from left to right, and its height. *)
Fixpoint leaf_list (t : node_t) : list node_t :=
  match t with
  | Node _ _ l r =>
    if is_leaf t then [t]
    else match l with Some l => leaf_list l | None => [] end
         ++ match r with Some r => leaf_list r | None => [] end
  end.

Fixpoint height (t : node_t) : nat :=
  match t with
  | Node _ _ l r =>
    if is_leaf t then 0%nat
    else S (match l with Some l => height l | None => 0 end
            `max` match r with Some r => height r | None => 0 end)%nat
  end.

(** Every node has no child or two. *)
Fixpoint full_tree (t : node_t) : Prop :=
  match t with
  | Node _ _ None None => True
  | Node _ _ (Some l) (Some r) => full_tree l ∧ full_tree r
  | _ => False
  end.

(** At every internal node the left child is not heavier than the right. *)
Fixpoint left_not_heavier (t : node_t) : Prop :=
  match t with
  | Node _ _ (Some l) (Some r) =>
    freq l ≤ freq r ∧ left_not_heavier l ∧ left_not_heavier r
  | _ => True
  end.

Definition slot_leaf_list (p : slot) : list node_t :=
  match p with Ptr t => leaf_list t | Junk => [] end.

(** The leaves of all the trees a list of slots points to. *)
Definition heap_leaves (l : list slot) : list node_t :=
  foldr (fun p acc => slot_leaf_list p ++ acc) [] l.

(** The heap order of the data model at the indices from [lo] on. *)
Definition ordered_from (lo : Z) (heap_p : min_heap_t) : Prop :=
  ∀ i c n m,
    0 ≤ i → lo ≤ i → c = 2 * i + 1 ∨ c = 2 * i + 2 → c < size heap_p →
    read (array heap_p) i = Ret (Ptr n) →
    read (array heap_p) c = Ret (Ptr m) →
    freq n ≤ freq m.

(** A heap of three nodes that is not in heap order. *)
Definition unordered_heap : min_heap_t :=
  {| size := 3; capacity := 3;
     array := [Ptr (leaf 9); Ptr (leaf 5); Ptr (leaf 7)] |}.

(** ** Notions used in the proofs *)

(** [sel a i] is the slot the C expression [a[i]] denotes for an index
    within the array. *)
Definition sel (a : list slot) (i : Z) : slot := default Junk (a !! Z.to_nat i).
Definition wt (a : list slot) (i : Z) : Z := weight (sel a i).

#[global] Instance valid_dec h : Decision (valid h).
Proof. unfold valid. apply _. Defined.

(** The heap order at one index, from an index on, and from an index on
    with one exception. *)
Definition heap_at (a : list slot) (sz j : Z) : Prop :=
  (2 * j + 1 < sz → wt a j ≤ wt a (2 * j + 1))
  ∧ (2 * j + 2 < sz → wt a j ≤ wt a (2 * j + 2)).

Definition heap_from (lo : Z) (a : list slot) (sz : Z) : Prop :=
  ∀ j, lo ≤ j → heap_at a sz j.

(** The order holds from [lo] on except at [idx], whose children are
    still above its parent. *)
Definition almost_heap (lo idx : Z) (a : list slot) (sz : Z) : Prop :=
  (∀ j, lo ≤ j → j ≠ idx → heap_at a sz j)
  ∧ (∀ p c, lo ≤ p → idx = 2 * p + 1 ∨ idx = 2 * p + 2 →
       c = 2 * idx + 1 ∨ c = 2 * idx + 2 → c < sz → wt a p ≤ wt a c).

Definition live (a : list slot) (sz : Z) : Prop :=
  0 ≤ sz ≤ Z.of_nat (length a)
  ∧ Z.of_nat (length a) ≤ MAX_SLOTS
  ∧ ∀ i, 0 ≤ i < sz → is_ptr (sel a i).

Definition swapped (a : list slot) (c index : Z) : list slot :=
  <[Z.to_nat index := sel a c]> (<[Z.to_nat c := sel a index]> a).

(** The order around the hole at [i] while [insert] moves parents down:
    the order holds between slots other than the hole, the children of the
    hole are above the new node, and above the parent of the hole. *)
Definition hole_inv (a : list slot) (i sz w : Z) : Prop :=
  (∀ j c, 0 ≤ j → c = 2 * j + 1 ∨ c = 2 * j + 2 → c < sz →
          c ≠ i → j ≠ i → wt a j ≤ wt a c)
  ∧ (∀ c, c = 2 * i + 1 ∨ c = 2 * i + 2 → c < sz → w ≤ wt a c)
  ∧ (∀ p c, 0 ≤ p → i = 2 * p + 1 ∨ i = 2 * p + 2 →
            c = 2 * i + 1 ∨ c = 2 * i + 2 → c < sz → wt a p ≤ wt a c).

(** What the merge loop keeps: the number of leaves and of internal nodes
    in the heap, and the weights of its trees. *)
Definition count_inv (n : Z) (l : list slot) : Prop :=
  total slot_leaves l = n
  ∧ total slot_internal_nodes l + Z.of_nat (length l) = n.

Definition weights_wrap (T : Z) (l : list slot) : Prop :=
  total slot_leaf_weight_sum l = T
  ∧ Forall (fun p => ∀ t, p = Ptr t →
      freq t = to_unsigned (leaf_weight_sum t) ∧ sums_children t) l.

Definition weights_exact (l : list slot) : Prop :=
  total slot_leaf_weight_sum l ≤ UINT_MAX
  ∧ Forall (fun p => ∀ t, p = Ptr t →
      freq t = leaf_weight_sum t ∧ 0 ≤ freq t ∧ adds_children t) l.

(** Tactics: bounds of [int] arithmetic, and case analysis on the outcome
    bound first in the goal. *)
Ltac int_range := unfold INT_MIN, INT_MAX, MAX_SLOTS in *; lia.

Ltac destruct_bind :=
  match goal with
  | |- context [mbind _ ?m] =>
    lazymatch m with
    | Ret _ => fail
    | _ => destruct m eqn:?; cbn [mbind outcome_bind]; try discriminate
    end
  end.

(** * Properties *)

(** ** Outcomes and array accesses *)

Lemma bind_Ret {A B} (a : A) (k : A → outcome B) : (Ret a ≫= k) = k a.
Proof. reflexivity. Qed.

Lemma bind_Ret_inv {A B} (m : outcome A) (k : A → outcome B) b :
  m ≫= k = Ret b → ∃ a, m = Ret a ∧ k a = Ret b.
Proof. destruct m; simpl; intros; try discriminate; eauto. Qed.

Lemma int_Ret z : INT_MIN ≤ z ≤ INT_MAX → int z = Ret z.
Proof. intros. unfold int. by rewrite decide_True. Qed.

Lemma read_sel (a : list slot) i :
  0 ≤ i < Z.of_nat (length a) → read a i = Ret (sel a i).
Proof.
  intros Hi. unfold read, sel. rewrite decide_True by lia.
  destruct (lookup_lt_is_Some_2 a (Z.to_nat i)) as [x ->]; [lia | done].
Qed.

Lemma read_Ret_sel (a : list slot) i p :
  read a i = Ret p → 0 ≤ i < Z.of_nat (length a) ∧ sel a i = p.
Proof.
  unfold read, sel. case_decide; [|done].
  destruct (a !! Z.to_nat i) eqn:E; [|done]. intros [= ->].
  apply lookup_lt_Some in E. split; [lia | done].
Qed.

Lemma write_Ret {A} (a : list A) i x :
  0 ≤ i < Z.of_nat (length a) → write a i x = Ret (<[Z.to_nat i := x]> a).
Proof. intros. unfold write. by rewrite decide_True. Qed.

Lemma freq_at_wt a i :
  0 ≤ i < Z.of_nat (length a) → is_ptr (sel a i) → freq_at a i = Ret (wt a i).
Proof.
  intros Hi [n Hn]. unfold freq_at, wt. rewrite read_sel by done.
  rewrite Hn. reflexivity.
Qed.

Lemma sel_insert_eq a i x :
  0 ≤ i < Z.of_nat (length a) → sel (<[Z.to_nat i := x]> a) i = x.
Proof. intros. unfold sel. rewrite list_lookup_insert_eq by lia. done. Qed.

Lemma sel_insert_ne a i j x :
  0 ≤ i → 0 ≤ j → i ≠ j → sel (<[Z.to_nat i := x]> a) j = sel a j.
Proof. intros. unfold sel. rewrite list_lookup_insert_ne by lia. done. Qed.

Lemma wt_insert_eq a i x :
  0 ≤ i < Z.of_nat (length a) → wt (<[Z.to_nat i := x]> a) i = weight x.
Proof. intros. unfold wt. by rewrite sel_insert_eq. Qed.

Lemma wt_insert_ne a i j x :
  0 ≤ i → 0 ≤ j → i ≠ j → wt (<[Z.to_nat i := x]> a) j = wt a j.
Proof. intros. unfold wt. by rewrite sel_insert_ne. Qed.

(** ** Permutations of an array under updates *)

Lemma insert_Permutation {A} (l : list A) i x y :
  l !! i = Some y → y :: <[i:=x]> l ≡ₚ x :: l.
Proof.
  revert i. induction l as [|a l IH]; intros [|i]; simpl; try done.
  - intros [= ->]. apply perm_swap.
  - intros Hi. rewrite (perm_swap a y). rewrite (IH _ Hi). apply perm_swap.
Qed.

Lemma swap_Permutation {A} (l : list A) i j x y :
  l !! i = Some x → l !! j = Some y → <[j:=x]> (<[i:=y]> l) ≡ₚ l.
Proof.
  intros Hi Hj. destruct (decide (i = j)) as [->|Hne].
  - assert (x = y) as -> by congruence.
    rewrite list_insert_insert_eq. by rewrite list_insert_id.
  - apply (Permutation_cons_inv (a := y)).
    rewrite (insert_Permutation (<[i:=y]> l) j x y)
      by (by rewrite list_lookup_insert_ne).
    by apply insert_Permutation.
Qed.

(** ** Sifting down *)

Lemma swap_node_Ret a c index :
  0 ≤ c < Z.of_nat (length a) → 0 ≤ index < Z.of_nat (length a) →
  swap_node a c index = Ret (swapped a c index).
Proof.
  intros Hc Hi. unfold swap_node, swapped.
  rewrite !read_sel by done. simpl.
  rewrite write_Ret by done. simpl.
  rewrite write_Ret by (rewrite length_insert; done). done.
Qed.

Lemma length_swapped a c index : length (swapped a c index) = length a.
Proof. unfold swapped. by rewrite !length_insert. Qed.

Lemma sel_swapped a c index j :
  0 ≤ c < Z.of_nat (length a) → 0 ≤ index < Z.of_nat (length a) → 0 ≤ j →
  sel (swapped a c index) j =
    if decide (j = index) then sel a c
    else if decide (j = c) then sel a index else sel a j.
Proof.
  intros Hc Hi Hj. unfold swapped.
  destruct (decide (j = index)) as [->|Hne].
  - rewrite sel_insert_eq; [done | by rewrite length_insert].
  - rewrite sel_insert_ne by lia.
    destruct (decide (j = c)) as [->|Hne'].
    + by rewrite sel_insert_eq.
    + by rewrite sel_insert_ne by lia.
Qed.

Lemma wt_swapped a c index j :
  0 ≤ c < Z.of_nat (length a) → 0 ≤ index < Z.of_nat (length a) → 0 ≤ j →
  wt (swapped a c index) j =
    if decide (j = index) then wt a c
    else if decide (j = c) then wt a index else wt a j.
Proof.
  intros. unfold wt. rewrite sel_swapped by done.
  repeat case_decide; done.
Qed.

Lemma sel_lookup a i :
  0 ≤ i < Z.of_nat (length a) → a !! Z.to_nat i = Some (sel a i).
Proof.
  intros Hi. unfold sel.
  destruct (lookup_lt_is_Some_2 a (Z.to_nat i)) as [x ->]; [lia | done].
Qed.

Lemma take_swapped a sz c index :
  0 ≤ c < sz → 0 ≤ index < sz → sz ≤ Z.of_nat (length a) →
  take (Z.to_nat sz) (swapped a c index) ≡ₚ take (Z.to_nat sz) a.
Proof.
  intros Hc Hi Hsz. unfold swapped.
  rewrite !take_insert_lt by lia.
  apply swap_Permutation; rewrite lookup_take_lt by lia; apply sel_lookup; lia.
Qed.

Lemma live_swapped a sz c index :
  0 ≤ c < sz → 0 ≤ index < sz → live a sz → live (swapped a c index) sz.
Proof.
  intros Hc Hi (Hsz & Hmax & Hp). unfold live.
  rewrite length_swapped. split; [lia | split; [lia |]].
  intros j Hj. rewrite sel_swapped by lia.
  repeat case_decide; apply Hp; lia.
Qed.

Lemma swapped_almost_heap a sz lo index c :
  0 ≤ lo ≤ index → c = 2 * index + 1 ∨ c = 2 * index + 2 →
  c < sz ≤ Z.of_nat (length a) →
  wt a c < wt a index →
  (∀ s, s = 2 * index + 1 ∨ s = 2 * index + 2 → s < sz → wt a c ≤ wt a s) →
  almost_heap lo index a sz →
  almost_heap lo c (swapped a c index) sz.
Proof.
  intros Hlo Hc Hsz Hlt Hmin [Hothers Hgrand]. split.
  - intros j Hj Hjc. unfold heap_at.
    rewrite !wt_swapped by lia.
    destruct (decide (j = index)) as [->|Hji].
    + split; intros Hs; repeat case_decide; try lia;
        (apply Hmin; [lia | lia]).
    + destruct (Hothers j Hj Hji) as [Hl Hr].
      split; intros Hs; repeat case_decide; try lia; auto.
      * apply (Hgrand j c); lia.
      * apply (Hgrand j c); lia.
  - intros p g Hp Hcp Hg Hgs.
    assert (p = index) as -> by lia.
    rewrite !wt_swapped by lia.
    repeat case_decide; try lia.
    destruct (Hothers c) as [Hl Hr]; [lia | lia |].
    destruct Hg as [-> | ->]; auto.
Qed.

Lemma settled_heap_from a sz lo index :
  (∀ s, s = 2 * index + 1 ∨ s = 2 * index + 2 → s < sz → wt a index ≤ wt a s) →
  almost_heap lo index a sz → heap_from lo a sz.
Proof.
  intros Hmin [Hothers _] j Hj.
  destruct (decide (j = index)) as [->|Hne]; [|by apply Hothers].
  split; intros; apply Hmin; lia.
Qed.

Lemma heapify_rec_spec fuel : ∀ a sz cap index,
  live a sz → 0 ≤ index < MAX_SLOTS → (Z.to_nat (sz - index) < fuel)%nat →
  ∃ a', heapify_rec fuel (Heap sz cap a) index = Ret (Heap sz cap a')
    ∧ length a' = length a
    ∧ take (Z.to_nat sz) a' ≡ₚ take (Z.to_nat sz) a
    ∧ live a' sz
    ∧ (∀ lo, 0 ≤ lo ≤ index → almost_heap lo index a sz → heap_from lo a' sz).
Proof.
  induction fuel as [|fuel IH]; intros a sz cap index Hlive Hidx Hfuel; [lia|].
  pose proof Hlive as (Hsz & Hmax & Hp).
  assert (Hrec : ∀ c, c = 2 * index + 1 ∨ c = 2 * index + 2 → c < sz →
            wt a c < wt a index →
            (∀ s, s = 2 * index + 1 ∨ s = 2 * index + 2 → s < sz →
                  wt a c ≤ wt a s) →
            ∃ a', (arr ← swap_node a c index;
                   heapify_rec fuel (set_array (Heap sz cap a) arr) c)
                  = Ret (Heap sz cap a')
              ∧ length a' = length a
              ∧ take (Z.to_nat sz) a' ≡ₚ take (Z.to_nat sz) a
              ∧ live a' sz
              ∧ (∀ lo, 0 ≤ lo ≤ index → almost_heap lo index a sz →
                       heap_from lo a' sz)).
  { intros c Hc Hcsz Hlt Hmin.
    rewrite swap_node_Ret by lia. rewrite bind_Ret. unfold set_array; simpl.
    destruct (IH (swapped a c index) sz cap c) as (a' & Heq & Hlen & Hperm & Hl' & Hheap).
    - apply live_swapped; [lia | lia | done].
    - int_range.
    - lia.
    - exists a'. split; [done|]. split; [by rewrite Hlen, length_swapped|].
      split; [rewrite Hperm; apply take_swapped; lia|].
      split; [done|]. intros lo Hlo Halmost.
      apply Hheap; [lia|]. apply swapped_almost_heap; try done; lia. }
  assert (Hstop :
            (∀ s, s = 2 * index + 1 ∨ s = 2 * index + 2 → s < sz →
                  wt a index ≤ wt a s) →
            ∃ a', Ret (Heap sz cap a) = Ret (Heap sz cap a')
              ∧ length a' = length a
              ∧ take (Z.to_nat sz) a' ≡ₚ take (Z.to_nat sz) a
              ∧ live a' sz
              ∧ (∀ lo, 0 ≤ lo ≤ index → almost_heap lo index a sz →
                       heap_from lo a' sz)).
  { intros Hmin. exists a. do 4 (split; [done|]).
    intros lo Hlo Halmost. by apply (settled_heap_from a sz lo index). }
  cbn [heapify_rec].
  rewrite (int_Ret (2 * index)) by int_range. rewrite bind_Ret.
  rewrite (int_Ret (2 * index + 1)) by int_range. rewrite !bind_Ret.
  rewrite (int_Ret (2 * index + 2)) by int_range. rewrite bind_Ret.
  cbn [size array].
  destruct (decide (2 * index + 1 < sz)) as [Hl|Hl].
  - rewrite (freq_at_wt a (2 * index + 1)) by (try apply Hp; lia).
    rewrite (freq_at_wt a index) by (try apply Hp; lia).
    do 2 rewrite bind_Ret.
    destruct (decide (wt a (2 * index + 1) < wt a index)) as [Hlt|Hlt];
      rewrite bind_Ret.
    + destruct (decide (2 * index + 2 < sz)) as [Hr|Hr].
      * rewrite (freq_at_wt a (2 * index + 2)) by (try apply Hp; lia).
        rewrite (freq_at_wt a (2 * index + 1)) by (try apply Hp; lia).
        do 2 rewrite bind_Ret.
        destruct (decide (wt a (2 * index + 2) < wt a (2 * index + 1)));
          rewrite bind_Ret; rewrite decide_True by lia.
        -- apply Hrec; [lia | lia | lia |].
           intros s [-> | ->] ?; lia.
        -- apply Hrec; [lia | lia | lia |].
           intros s [-> | ->] ?; lia.
      * rewrite bind_Ret. rewrite decide_True by lia.
        apply Hrec; [lia | lia | lia |].
        intros s [-> | ->] ?; lia.
    + destruct (decide (2 * index + 2 < sz)) as [Hr|Hr].
      * rewrite (freq_at_wt a (2 * index + 2)) by (try apply Hp; lia).
        rewrite (freq_at_wt a index) by (try apply Hp; lia).
        do 2 rewrite bind_Ret.
        destruct (decide (wt a (2 * index + 2) < wt a index));
          rewrite bind_Ret.
        -- rewrite decide_True by lia.
           apply Hrec; [lia | lia | lia |].
           intros s [-> | ->] ?; lia.
        -- rewrite decide_False by lia.
           apply Hstop. intros s [-> | ->] ?; lia.
      * rewrite bind_Ret. rewrite decide_False by lia.
        apply Hstop. intros s [-> | ->] ?; lia.
  - rewrite bind_Ret. rewrite decide_False by lia. rewrite bind_Ret.
    rewrite decide_False by lia.
    apply Hstop. intros s [-> | ->] ?; lia.
Qed.

(** ** Valid heaps in terms of [live] and [heap_from] *)

Lemma Forall_take_sel (a : list slot) sz (P : slot → Prop) :
  0 ≤ sz ≤ Z.of_nat (length a) →
  Forall P (take (Z.to_nat sz) a) ↔ ∀ i, 0 ≤ i < sz → P (sel a i).
Proof.
  intros Hsz. rewrite Forall_lookup. split.
  - intros H i Hi. apply (H (Z.to_nat i)).
    rewrite lookup_take_lt by lia. apply sel_lookup. lia.
  - intros H i x Hx. apply lookup_take_Some in Hx as [Hx Hi].
    specialize (H (Z.of_nat i)). unfold sel in H.
    rewrite Nat2Z.id, Hx in H. apply H. lia.
Qed.

Lemma valid_live h :
  valid h ↔
  live (array h) (size h) ∧ capacity h = Z.of_nat (length (array h)).
Proof.
  unfold valid, live, contents. split.
  - intros (Hsz & Hcap & Hmax & Hp). rewrite Forall_take_sel in Hp by done.
    done.
  - intros ((Hsz & Hmax & Hp) & Hcap). rewrite Forall_take_sel by done.
    done.
Qed.

Lemma heap_property_from h :
  valid h → heap_property h ↔ heap_from 0 (array h) (size h).
Proof.
  intros [(Hsz & Hmax & Hp) _]%valid_live. unfold heap_property. split.
  - intros H j Hj.
    split; intros Hc.
    + destruct (Hp j) as [n Hn]; [lia|].
      destruct (Hp (2 * j + 1)) as [m Hm]; [lia|].
      unfold wt. rewrite Hn, Hm. simpl.
      apply (H j (2 * j + 1)); try lia.
      * rewrite read_sel by lia. by rewrite Hn.
      * rewrite read_sel by lia. by rewrite Hm.
    + destruct (Hp j) as [n Hn]; [lia|].
      destruct (Hp (2 * j + 2)) as [m Hm]; [lia|].
      unfold wt. rewrite Hn, Hm. simpl.
      apply (H j (2 * j + 2)); try lia.
      * rewrite read_sel by lia. by rewrite Hn.
      * rewrite read_sel by lia. by rewrite Hm.
  - intros H i c n m Hi Hc Hcsz [_ Hn]%read_Ret_sel [_ Hm]%read_Ret_sel.
    destruct (H i Hi) as [Hl Hr].
    unfold wt in Hl, Hr.
    destruct Hc as [-> | ->]; rewrite Hn, Hm in *; simpl in *; auto.
Qed.

Lemma heapify_spec h index :
  valid h → 0 ≤ index < MAX_SLOTS →
  ∃ h', heapify h index = Ret h'
    ∧ size h' = size h ∧ capacity h' = capacity h
    ∧ length (array h') = length (array h)
    ∧ valid h'
    ∧ contents h' ≡ₚ contents h
    ∧ (∀ lo, 0 ≤ lo ≤ index →
         almost_heap lo index (array h) (size h) →
         heap_from lo (array h') (size h)).
Proof.
  intros [Hlive Hcap]%valid_live Hidx. destruct h as [sz cap a]; simpl in *.
  destruct (heapify_rec_spec (S (Z.to_nat (sz - index))) a sz cap index)
    as (a' & Heq & Hlen & Hperm & Hl' & Hheap); [done | done | lia |].
  exists (Heap sz cap a'). unfold heapify; simpl.
  split; [done|]. do 3 (split; [done|]).
  split; [apply valid_live; simpl; split; [done | by rewrite Hlen]|].
  split; done.
Qed.

(** ** [pop] *)

Lemma take_pop_Permutation (a : list slot) sz :
  1 ≤ sz ≤ Z.of_nat (length a) →
  take (Z.to_nat sz) a ≡ₚ
  sel a 0 :: take (Z.to_nat (sz - 1)) (<[Z.to_nat 0 := sel a (sz - 1)]> a).
Proof.
  intros Hsz. destruct (decide (sz = 1)) as [->|Hne].
  - simpl. destruct a as [|x a]; simpl in *; [lia|].
    rewrite take_0. done.
  - rewrite take_insert_lt by lia.
    replace (Z.to_nat sz) with (S (Z.to_nat (sz - 1))) by lia.
    rewrite (take_S_r a _ (sel a (sz - 1))) by (apply sel_lookup; lia).
    rewrite (insert_Permutation _ _ _ (sel a 0))
      by (rewrite lookup_take_lt by lia; apply sel_lookup; lia).
    symmetry. apply Permutation_cons_append.
Qed.

Lemma pop_spec h :
  valid h → 1 ≤ size h →
  ∃ h' n, pop h = Ret (h', Ptr n)
    ∧ read (array h) 0 = Ret (Ptr n)
    ∧ size h' = size h - 1 ∧ capacity h' = capacity h
    ∧ length (array h') = length (array h)
    ∧ valid h'
    ∧ contents h ≡ₚ Ptr n :: contents h'
    ∧ (heap_property h → heap_property h').
Proof.
  intros Hvalid Hsz1.
  pose proof Hvalid as [(Hsz & Hmax & Hp) Hcap]%valid_live.
  destruct (Hp 0) as [n Hn]; [lia|].
  set (a1 := <[Z.to_nat 0 := sel (array h) (size h - 1)]> (array h)).
  assert (Hv1 : valid (Heap (size h - 1) (capacity h) a1)).
  { apply valid_live; simpl. unfold a1, live. rewrite length_insert.
    split; [|done]. split; [lia|]. split; [done|].
    intros j Hj. destruct (decide (j = 0)) as [->|Hne].
    - rewrite sel_insert_eq by lia. apply Hp. lia.
    - rewrite sel_insert_ne by lia. apply Hp. lia. }
  destruct (heapify_spec _ 0 Hv1) as (h' & Heq & Hsize & Hcap' & Hlen & Hv' & Hperm & Hheap);
    [int_range|]. simpl in *.
  exists h', n. unfold pop.
  rewrite read_sel by lia. rewrite bind_Ret.
  rewrite int_Ret by int_range. rewrite bind_Ret.
  rewrite read_sel by lia. rewrite bind_Ret.
  rewrite write_Ret by lia. rewrite !bind_Ret.
  fold a1. rewrite Heq. rewrite bind_Ret. rewrite Hn.
  do 4 (split; [done|]).
  split; [by rewrite Hlen; unfold a1; rewrite length_insert|].
  split; [done|]. split.
  - unfold contents at 2. rewrite Hsize.
    unfold contents in Hperm. simpl in Hperm. rewrite Hsize in Hperm.
    rewrite Hperm. unfold contents. rewrite <- Hn.
    apply take_pop_Permutation. lia.
  - intros Hhp. apply heap_property_from; [done|]. rewrite Hsize.
    apply heap_property_from in Hhp; [|done].
    apply Hheap; [lia|]. split.
    + intros j Hj Hj0. destruct (Hhp j Hj) as [Hl Hr]. unfold a1.
      split; intros Hc; rewrite !wt_insert_ne by lia; [apply Hl | apply Hr]; lia.
    + intros p c Hp0 Hc. lia.
Qed.

(** ** C division by two *)

Lemma quot2_nonneg i :
  0 ≤ i → i = 2 * (i `quot` 2) ∨ i = 2 * (i `quot` 2) + 1.
Proof.
  intros. pose proof (Z.quot_rem' i 2). pose proof (Z.rem_bound_pos i 2). lia.
Qed.

Lemma quot2_neg i :
  i < 0 → i = 2 * (i `quot` 2) ∨ i = 2 * (i `quot` 2) - 1.
Proof.
  intros. pose proof (Z.quot_rem' i 2).
  pose proof (Z.rem_opp_l i 2). pose proof (Z.rem_bound_pos (- i) 2). lia.
Qed.

Lemma parent_index i :
  1 ≤ i →
  0 ≤ (i - 1) `quot` 2 < i
  ∧ (i = 2 * ((i - 1) `quot` 2) + 1 ∨ i = 2 * ((i - 1) `quot` 2) + 2).
Proof. intros. pose proof (quot2_nonneg (i - 1)). lia. Qed.

(** ** [insert] *)

Lemma hole_inv_step a i sz w :
  1 ≤ i < Z.of_nat (length a) →
  w < wt a ((i - 1) `quot` 2) →
  hole_inv a i sz w →
  hole_inv (<[Z.to_nat i := sel a ((i - 1) `quot` 2)]> a) ((i - 1) `quot` 2) sz w.
Proof.
  intros Hi Hlt (HA & HB & HC).
  destruct (parent_index i) as [Hp Hpi]; [lia|].
  set (p := (i - 1) `quot` 2) in *.
  assert (Hwt : ∀ k, 0 ≤ k →
            wt (<[Z.to_nat i := sel a p]> a) k = if decide (k = i) then wt a p else wt a k).
  { intros k Hk. case_decide as Hki.
    - subst k. unfold wt. by rewrite sel_insert_eq by lia.
    - by rewrite wt_insert_ne by lia. }
  split; [|split].
  - intros j c Hj Hc Hcsz Hcp Hjp. rewrite !Hwt by lia.
    destruct (decide (j = i)) as [->|Hji].
    + rewrite decide_False by lia. apply (HC p c); lia.
    + rewrite decide_False by lia. apply HA; lia.
  - intros c Hc Hcsz. rewrite Hwt by lia. case_decide; [lia|].
    assert (wt a p ≤ wt a c) by (apply HA; lia). lia.
  - intros q c Hq Hpq Hc Hcsz. rewrite !Hwt by lia.
    rewrite (decide_False (P := q = i)) by lia.
    assert (wt a q ≤ wt a p) by (apply HA; lia).
    case_decide; [lia|].
    assert (wt a p ≤ wt a c) by (apply HA; lia). lia.
Qed.

Lemma hole_inv_fill a i sz x :
  0 ≤ i < Z.of_nat (length a) →
  (i ≠ 0 → wt a ((i - 1) `quot` 2) ≤ freq x) →
  hole_inv a i sz (freq x) →
  heap_from 0 (<[Z.to_nat i := Ptr x]> a) sz.
Proof.
  intros Hi Hparent (HA & HB & HC) j Hj.
  assert (Hwt : ∀ k, 0 ≤ k →
            wt (<[Z.to_nat i := Ptr x]> a) k = if decide (k = i) then freq x else wt a k).
  { intros k Hk. case_decide as Hki.
    - subst k. by rewrite wt_insert_eq by lia.
    - by rewrite wt_insert_ne by lia. }
  assert (Hedge : ∀ c, c = 2 * j + 1 ∨ c = 2 * j + 2 → c < sz →
            wt (<[Z.to_nat i := Ptr x]> a) j ≤ wt (<[Z.to_nat i := Ptr x]> a) c).
  { intros c Hc Hcsz. rewrite !Hwt by lia.
    destruct (decide (j = i)) as [->|Hji].
    - rewrite decide_False by lia. apply HB; lia.
    - destruct (decide (c = i)) as [->|Hci].
      + destruct (parent_index i) as [Hp Hpi]; [lia|].
        assert (j = (i - 1) `quot` 2) as -> by lia.
        apply Hparent. lia.
      + apply HA; lia. }
  split; intros; apply Hedge; lia.
Qed.

Lemma insert_loop_spec x fuel : ∀ a i,
  Z.of_nat (length a) ≤ MAX_SLOTS → 0 ≤ i < Z.of_nat (length a) →
  (Z.to_nat i < fuel)%nat →
  (∀ j, 0 ≤ j < i → is_ptr (sel a j)) →
  ∃ a' i', insert_loop fuel a x i = Ret (a', i')
    ∧ 0 ≤ i' ≤ i ∧ length a' = length a
    ∧ (∀ n v, i < n →
         take (Z.to_nat n) (<[Z.to_nat i' := v]> a')
         ≡ₚ take (Z.to_nat n) (<[Z.to_nat i := v]> a))
    ∧ (∀ sz, hole_inv a i sz (freq x) →
         heap_from 0 (<[Z.to_nat i' := Ptr x]> a') sz).
Proof.
  induction fuel as [|fuel IH]; intros a i Hmax Hi Hfuel Hp; [lia|].
  cbn [insert_loop].
  destruct (decide (i ≠ 0)) as [Hi0|Hi0].
  - destruct (parent_index i) as [Hpar Hpi]; [lia|].
    set (p := (i - 1) `quot` 2) in *.
    rewrite int_Ret by int_range. rewrite bind_Ret. fold p.
    rewrite freq_at_wt by (try apply Hp; lia). rewrite bind_Ret.
    destruct (decide (freq x < wt a p)) as [Hlt|Hge].
    + rewrite read_sel by lia. rewrite bind_Ret.
      rewrite write_Ret by lia. rewrite bind_Ret.
      set (a1 := <[Z.to_nat i := sel a p]> a).
      destruct (IH a1 p) as (a' & i' & Heq & Hi' & Hlen & Hperm & Hheap).
      * unfold a1. by rewrite length_insert.
      * unfold a1. rewrite length_insert. lia.
      * lia.
      * intros j Hj. unfold a1. rewrite sel_insert_ne by lia. apply Hp. lia.
      * exists a', i'. split; [done|]. split; [lia|].
        split; [by rewrite Hlen; unfold a1; rewrite length_insert|]. split.
        -- intros n v Hn. rewrite Hperm by lia. unfold a1.
           rewrite !take_insert_lt by lia.
           rewrite <- (list_insert_insert_eq (take (Z.to_nat n) a)
                         (Z.to_nat i) (sel a p) v).
           apply swap_Permutation.
           ++ apply list_lookup_insert_eq. rewrite length_take. lia.
           ++ rewrite list_lookup_insert_ne by lia.
              rewrite lookup_take_lt by lia. apply sel_lookup. lia.
        -- intros sz Hinv. apply Hheap. apply hole_inv_step; [lia | done | done].
    + exists a, i. split; [done|]. split; [lia|]. split; [done|].
      split; [done|]. intros sz Hinv.
      apply hole_inv_fill; [lia | | done]. intros _. fold p. lia.
  - assert (i = 0) as -> by lia.
    exists a, 0. split; [done|]. split; [lia|]. split; [done|].
    split; [done|]. intros sz Hinv.
    apply hole_inv_fill; [lia | | done]. intros ?. lia.
Qed.

Lemma insert_spec h x :
  valid h → size h < Z.of_nat (length (array h)) →
  ∃ h', insert h x = Ret h'
    ∧ size h' = size h + 1 ∧ capacity h' = capacity h
    ∧ length (array h') = length (array h)
    ∧ valid h'
    ∧ contents h' ≡ₚ Ptr x :: contents h
    ∧ (heap_property h → heap_property h').
Proof.
  intros Hvalid Hroom.
  pose proof Hvalid as [(Hsz & Hmax & Hp) Hcap]%valid_live.
  destruct (insert_loop_spec x (S (Z.to_nat (size h))) (array h) (size h))
    as (a' & i' & Heq & Hi' & Hlen & Hperm & Hheap);
    [done | lia | lia | done |].
  set (a2 := <[Z.to_nat i' := Ptr x]> a').
  assert (Hcont : take (Z.to_nat (size h + 1)) a2
                  ≡ₚ Ptr x :: take (Z.to_nat (size h)) (array h)).
  { unfold a2. rewrite Hperm by lia.
    replace (Z.to_nat (size h + 1)) with (S (Z.to_nat (size h))) by lia.
    rewrite (take_S_r _ _ (Ptr x))
      by (apply list_lookup_insert_eq; lia).
    rewrite take_insert_ge by lia.
    symmetry. apply Permutation_cons_append. }
  assert (Hv2 : valid (Heap (size h + 1) (capacity h) a2)).
  { unfold valid, contents; simpl. unfold a2. rewrite length_insert, Hlen.
    fold a2. split; [lia|]. split; [done|]. split; [done|].
    rewrite Hcont. constructor; [by eexists|].
    apply Forall_take_sel; done. }
  exists (Heap (size h + 1) (capacity h) a2). unfold insert.
  rewrite int_Ret by int_range. rewrite bind_Ret.
  rewrite int_Ret by int_range. rewrite bind_Ret.
  replace (size h + 1 - 1) with (size h) by lia.
  rewrite Heq. rewrite bind_Ret.
  rewrite write_Ret by lia. rewrite bind_Ret. fold a2.
  split; [done|]. simpl. do 2 (split; [done|]).
  split; [by unfold a2; rewrite length_insert|].
  split; [done|]. split; [done|].
  intros Hhp. apply heap_property_from; [done|]. simpl.
  apply Hheap. apply heap_property_from in Hhp; [|done].
  split; [|split].
  - intros j c Hj Hc Hcsz Hci Hji. destruct (Hhp j Hj) as [Hl Hr].
    destruct Hc as [-> | ->]; [apply Hl | apply Hr]; lia.
  - intros c Hc Hcsz. lia.
  - intros p c Hp0 Hip Hc Hcsz. lia.
Qed.

(** ** [build_min_heap] *)

Lemma build_min_heap_loop_spec fuel : ∀ h i,
  valid h → -1 ≤ i < MAX_SLOTS → (Z.to_nat (i + 1) < fuel)%nat →
  ∃ h', build_min_heap_loop fuel h i = Ret h'
    ∧ size h' = size h ∧ capacity h' = capacity h
    ∧ length (array h') = length (array h)
    ∧ valid h'
    ∧ contents h' ≡ₚ contents h
    ∧ (heap_from (i + 1) (array h) (size h) → heap_property h').
Proof.
  induction fuel as [|fuel IH]; intros h i Hvalid Hi Hfuel; [lia|].
  cbn [build_min_heap_loop].
  destruct (decide (i >= 0)) as [Hi0|Hi0].
  - destruct (heapify_spec h i Hvalid)
      as (h1 & Heq & Hsize & Hcap & Hlen & Hv1 & Hperm & Hheap); [lia|].
    rewrite Heq, bind_Ret. rewrite int_Ret by int_range. rewrite bind_Ret.
    destruct (IH h1 (i - 1) Hv1)
      as (h' & Heq' & Hsize' & Hcap' & Hlen' & Hv' & Hperm' & Hheap');
      [lia | lia |].
    exists h'. split; [done|]. split; [congruence|]. split; [congruence|].
    split; [congruence|]. split; [done|]. split; [by rewrite Hperm'|].
    intros Hfrom. apply Hheap'. rewrite Hsize.
    replace (i - 1 + 1) with i by lia.
    apply Hheap; [lia|]. split.
    + intros j Hj Hji. apply Hfrom. lia.
    + intros p c Hp Hip. lia.
  - exists h. do 6 (split; [done|]).
    intros Hfrom. apply heap_property_from; [done|].
    by replace (i + 1) with 0 in Hfrom by lia.
Qed.

Lemma build_min_heap_spec h :
  valid h →
  ∃ h', build_min_heap h = Ret h'
    ∧ size h' = size h ∧ capacity h' = capacity h
    ∧ length (array h') = length (array h)
    ∧ valid h'
    ∧ contents h' ≡ₚ contents h
    ∧ heap_property h'.
Proof.
  intros Hvalid.
  pose proof Hvalid as [(Hsz & Hmax & Hp) Hcap]%valid_live.
  unfold build_min_heap.
  rewrite int_Ret by int_range. rewrite bind_Ret.
  rewrite int_Ret by int_range. rewrite bind_Ret.
  set (i := (size h - 1 - 1) `quot` 2).
  assert (Hi : -1 ≤ i ∧ 2 * i ≤ size h - 2 ∧ size h - 3 ≤ 2 * i
               ∨ size h = 1 ∧ i = 0).
  { unfold i. destruct (decide (0 ≤ size h - 1 - 1)).
    - pose proof (quot2_nonneg (size h - 1 - 1)). lia.
    - destruct (decide (size h = 1)) as [->|]; [right; done|].
      assert (size h = 0) as Hz by lia. left. rewrite Hz.
      change ((0 - 1 - 1) `quot` 2) with (-1). lia. }
  destruct (build_min_heap_loop_spec (S (Z.to_nat (i + 1))) h i Hvalid)
    as (h' & Heq & Hsize & Hcap' & Hlen & Hv' & Hperm & Hheap);
    [int_range | lia |].
  exists h'. do 6 (split; [done|]). apply Hheap.
  intros j Hj. split; intros; lia.
Qed.

(** ** [create_and_build_min_heap] *)

Lemma read_lookup {A} (a : list A) i x :
  0 ≤ i → a !! Z.to_nat i = Some x → read a i = Ret x.
Proof. intros Hi Hx. unfold read. rewrite decide_True by done. by rewrite Hx. Qed.

Lemma fill_loop_spec symbols fuel : ∀ arr i,
  length arr = length symbols →
  Z.of_nat (length symbols) ≤ MAX_SLOTS →
  0 ≤ i ≤ Z.of_nat (length symbols) →
  (Z.to_nat (Z.of_nat (length symbols) - i) < fuel)%nat →
  fill_loop fuel arr (symbols.*1) (symbols.*2) (Z.of_nat (length symbols)) i
  = Ret (take (Z.to_nat i) arr ++ drop (Z.to_nat i) (leaf_slots symbols)).
Proof.
  induction fuel as [|fuel IH]; intros arr i Hlen Hmax Hi Hfuel; [lia|].
  cbn [fill_loop]. destruct (decide (i < Z.of_nat (length symbols))) as [Hlt|Hge].
  - destruct (lookup_lt_is_Some_2 symbols (Z.to_nat i)) as [[c f] Hcf]; [lia|].
    rewrite (read_lookup _ _ c) by (rewrite ?list_lookup_fmap, ?Hcf; done || lia).
    rewrite bind_Ret.
    rewrite (read_lookup _ _ f) by (rewrite ?list_lookup_fmap, ?Hcf; done || lia).
    rewrite bind_Ret.
    rewrite write_Ret by lia. rewrite bind_Ret.
    rewrite int_Ret by int_range. rewrite bind_Ret.
    rewrite IH; [|by rewrite length_insert | done | lia | lia].
    f_equal. replace (Z.to_nat (i + 1)) with (S (Z.to_nat i)) by lia.
    rewrite (take_S_r _ _ (Ptr (new_node c f)))
      by (apply list_lookup_insert_eq; lia).
    rewrite take_insert_ge by lia.
    rewrite (drop_S (leaf_slots symbols) (Ptr (new_node c f)) (Z.to_nat i)).
    + by rewrite <- app_assoc.
    + unfold leaf_slots. by rewrite list_lookup_fmap, Hcf.
  - f_equal. rewrite take_ge by lia.
    rewrite drop_ge by (unfold leaf_slots; rewrite length_fmap; lia).
    by rewrite app_nil_r.
Qed.

Lemma to_unsigned_small z : 0 ≤ z ≤ UINT_MAX → to_unsigned z = z.
Proof. intros. unfold to_unsigned. apply Z.mod_small. lia. Qed.

Lemma create_and_build_min_heap_spec symbols :
  Z.of_nat (length symbols) ≤ MAX_SLOTS →
  ∃ h, create_and_build_min_heap (symbols.*1) (symbols.*2)
         (Z.of_nat (length symbols)) = Ret h
    ∧ size h = Z.of_nat (length symbols)
    ∧ capacity h = Z.of_nat (length symbols)
    ∧ length (array h) = length symbols
    ∧ valid h
    ∧ contents h ≡ₚ leaf_slots symbols
    ∧ heap_property h.
Proof.
  intros Hmax. unfold create_and_build_min_heap, create_heap. cbn [array capacity].
  rewrite to_unsigned_small by (unfold UINT_MAX; int_range).
  rewrite fill_loop_spec;
    [| by rewrite length_replicate, Nat2Z.id | done | lia | lia].
  rewrite bind_Ret. rewrite take_0, drop_0. simpl.
  set (h0 := Heap _ _ _).
  assert (Hlen : length (leaf_slots symbols) = length symbols)
    by (unfold leaf_slots; by rewrite length_fmap).
  assert (Hc0 : contents h0 = leaf_slots symbols).
  { unfold contents, h0; simpl. rewrite take_ge; [done | lia]. }
  assert (Hv0 : valid h0).
  { unfold valid. rewrite Hc0. unfold h0; simpl. rewrite Hlen.
    split; [lia|]. split; [done|]. split; [done|].
    unfold leaf_slots. apply Forall_fmap, Forall_true. intros p. by eexists. }
  destruct (build_min_heap_spec h0 Hv0)
    as (h & Heq & Hsize & Hcap & Hlen' & Hv & Hperm & Hheap).
  exists h. split; [done|]. split; [done|]. split; [done|].
  split; [by rewrite Hlen'|]. split; [done|]. split; [|done].
  by rewrite Hperm, Hc0.
Qed.

(** ** The merge loop *)

Lemma total_Permutation {A} (f : A → Z) (l l' : list A) :
  l ≡ₚ l' → total f l = total f l'.
Proof. induction 1; simpl; lia. Qed.

Lemma to_unsigned_idemp z : to_unsigned (to_unsigned z) = to_unsigned z.
Proof. unfold to_unsigned. by rewrite Z.mod_mod. Qed.

Lemma merge_node_links l r :
  merge_node l r =
  set_right_p (set_left_p (new_node "$" (uadd (freq l) (freq r))) l) r.
Proof.
  unfold merge_node, set_right_p, set_left_p, new_node; simpl.
  unfold uadd at 2. by rewrite to_unsigned_idemp.
Qed.

Lemma merge_step_spec h :
  valid h → 2 ≤ size h →
  ∃ h' l r rest, merge_step h = Ret h'
    ∧ size h' = size h - 1 ∧ capacity h' = capacity h
    ∧ length (array h') = length (array h)
    ∧ valid h'
    ∧ contents h ≡ₚ Ptr l :: Ptr r :: rest
    ∧ contents h' ≡ₚ Ptr (merge_node l r) :: rest
    ∧ (heap_property h → heap_property h').
Proof.
  intros Hvalid Hsz.
  destruct (pop_spec h Hvalid)
    as (h1 & l & Hpop1 & _ & Hsz1 & Hcap1 & Hlen1 & Hv1 & Hperm1 & Hheap1); [lia|].
  destruct (pop_spec h1 Hv1)
    as (h2 & r & Hpop2 & _ & Hsz2 & Hcap2 & Hlen2 & Hv2 & Hperm2 & Hheap2); [lia|].
  destruct (insert_spec h2 (merge_node l r) Hv2)
    as (h' & Hins & Hsz' & Hcap' & Hlen' & Hv' & Hperm' & Hheap').
  { destruct Hvalid as (? & _). lia. }
  exists h', l, r, (contents h2). unfold merge_step.
  rewrite Hpop1, bind_Ret. rewrite Hpop2, bind_Ret. simpl.
  rewrite <- merge_node_links.
  split; [done|]. split; [lia|]. split; [congruence|]. split; [congruence|].
  split; [done|]. split; [by rewrite Hperm1, Hperm2|]. split; [done|]. auto.
Qed.

Lemma merge_steps_inv (I : list slot → Prop) :
  (∀ l l', l ≡ₚ l' → I l → I l') →
  (∀ l r rest, I (Ptr l :: Ptr r :: rest) → I (Ptr (merge_node l r) :: rest)) →
  ∀ k h, valid h → Z.of_nat k + 1 ≤ size h → I (contents h) →
  ∃ hk, merge_steps k h = Ret hk
    ∧ size hk = size h - Z.of_nat k ∧ capacity hk = capacity h
    ∧ length (array hk) = length (array h)
    ∧ valid hk
    ∧ I (contents hk)
    ∧ (heap_property h → heap_property hk).
Proof.
  intros Hperm Hmerge. induction k as [|k IH]; intros h Hvalid Hsz HI.
  - exists h. simpl. split; [done|]. split; [lia|]. done.
  - destruct (merge_step_spec h Hvalid)
      as (h' & l & r & rest & Heq & Hsz' & Hcap' & Hlen' & Hv' & Hc & Hc' & Hheap');
      [lia|].
    destruct (IH h' Hv') as (hk & Heqk & Hszk & Hcapk & Hlenk & Hvk & HIk & Hheapk).
    + lia.
    + apply (Hperm (Ptr (merge_node l r) :: rest)); [done|].
      apply Hmerge. by apply (Hperm (contents h)).
    + exists hk. cbn [merge_steps]. rewrite Heq, bind_Ret.
      split; [done|]. split; [lia|]. split; [congruence|]. split; [congruence|].
      split; [done|]. split; [done|]. auto.
Qed.

Lemma huffman_loop_merge_steps fuel : ∀ h,
  valid h → 1 ≤ size h → (Z.to_nat (size h) ≤ fuel)%nat →
  huffman_loop fuel h =
    (h1 ← merge_steps (Z.to_nat (size h - 1)) h; '(_, root) ← pop h1; Ret root).
Proof.
  induction fuel as [|fuel IH]; intros h Hvalid Hsz Hfuel; [lia|].
  cbn [huffman_loop]. unfold check_size.
  destruct (decide (size h = 1)) as [H1|H1].
  - rewrite bool_decide_eq_true_2 by done. rewrite H1. done.
  - rewrite bool_decide_eq_false_2 by done. cbn [negb].
    replace (Z.to_nat (size h - 1)) with (S (Z.to_nat (size h - 1 - 1))) by lia.
    cbn [merge_steps].
    destruct (merge_step_spec h Hvalid)
      as (h' & l & r & rest & Heq & Hsz' & Hcap' & Hlen' & Hv' & _); [lia|].
    rewrite Heq, !bind_Ret. rewrite IH by (done || lia).
    by rewrite Hsz'.
Qed.

Lemma pop_last h :
  valid h → size h = 1 →
  ∃ h' t, pop h = Ret (h', Ptr t) ∧ contents h ≡ₚ [Ptr t].
Proof.
  intros Hvalid Hsz.
  destruct (pop_spec h Hvalid)
    as (h' & t & Hpop & _ & Hsz' & _ & _ & _ & Hperm & _); [lia|].
  exists h', t. split; [done|]. rewrite Hperm. unfold contents.
  rewrite Hsz', Hsz. done.
Qed.

Lemma build_inv (I : list slot → Prop) symbols :
  (∀ l l', l ≡ₚ l' → I l → I l') →
  (∀ l r rest, I (Ptr l :: Ptr r :: rest) → I (Ptr (merge_node l r) :: rest)) →
  symbols ≠ [] → Z.of_nat (length symbols) ≤ MAX_SLOTS →
  I (leaf_slots symbols) →
  ∃ t, build symbols = Ret (Ptr t) ∧ I [Ptr t].
Proof.
  intros Hperm Hmerge Hne Hmax HI.
  assert (1 ≤ Z.of_nat (length symbols)) by (destruct symbols; simpl; [done | lia]).
  destruct (create_and_build_min_heap_spec symbols Hmax)
    as (h0 & Heq & Hsz & Hcap & Hlen & Hv0 & Hc0 & _).
  destruct (merge_steps_inv I Hperm Hmerge (Z.to_nat (size h0 - 1)) h0 Hv0)
    as (h1 & Heq1 & Hsz1 & _ & _ & Hv1 & HI1 & _).
  { lia. }
  { by apply (Hperm (leaf_slots symbols)). }
  destruct (pop_last h1 Hv1) as (h' & t & Hpop & Hc1); [lia|].
  exists t. split; [|by apply (Hperm (contents h1))].
  unfold build, build_huffman_tree, huffman_while.
  rewrite Heq, bind_Ret.
  rewrite huffman_loop_merge_steps by (done || lia).
  rewrite Heq1, bind_Ret. rewrite Hpop. done.
Qed.

(** ** The root of a heap is its minimum *)

Lemma heap_root_min a sz :
  heap_from 0 a sz → ∀ i, 0 ≤ i < sz → wt a 0 ≤ wt a i.
Proof.
  intros Hheap i [Hi Hsz]. revert Hsz.
  pattern i. apply (Wf_Z.Zlt_0_ind); [|done]. clear i Hi.
  intros i IH Hi Hsz.
  destruct (decide (i = 0)) as [->|Hne]; [done|].
  destruct (parent_index i) as [Hp Hpi]; [lia|].
  set (p := (i - 1) `quot` 2) in *.
  assert (wt a 0 ≤ wt a p) by (apply IH; lia).
  destruct (Hheap p) as [Hl Hr]; [lia|].
  clearbody p. assert (wt a p ≤ wt a i); [|lia].
  destruct Hpi as [-> | ->]; [apply Hl | apply Hr]; lia.
Qed.

Lemma elem_of_contents h p :
  p ∈ contents h →
  ∃ i, 0 ≤ i < size h ∧ i < Z.of_nat (length (array h)) ∧ sel (array h) i = p.
Proof.
  unfold contents. intros [i Hi]%list_elem_of_lookup.
  apply lookup_take_Some in Hi as [Hi Hlt].
  exists (Z.of_nat i). pose proof (lookup_lt_Some _ _ _ Hi).
  split; [lia|]. split; [lia|]. unfold sel. by rewrite Nat2Z.id, Hi.
Qed.

Lemma pop_min h :
  valid h → heap_property h → 1 ≤ size h →
  ∃ h' n, pop h = Ret (h', Ptr n)
    ∧ valid h' ∧ heap_property h' ∧ size h' = size h - 1
    ∧ contents h ≡ₚ Ptr n :: contents h'
    ∧ ∀ p, p ∈ contents h → freq n ≤ weight p.
Proof.
  intros Hvalid Hheap Hsz.
  destruct (pop_spec h Hvalid)
    as (h' & n & Hpop & Hread & Hsz' & _ & _ & Hv' & Hperm & Hheap'); [lia|].
  exists h', n. split; [done|]. split; [done|]. split; [auto|].
  split; [done|]. split; [done|].
  intros p (i & Hi & _ & Hp)%elem_of_contents.
  apply read_Ret_sel in Hread as [_ Hn].
  apply heap_property_from in Hheap; [|done].
  pose proof (heap_root_min _ _ Hheap i Hi) as Hle.
  unfold wt in Hle. by rewrite Hn, Hp in Hle.
Qed.

Lemma pop_many_spec k : ∀ h,
  valid h → heap_property h → Z.of_nat k ≤ size h →
  ∃ h' ps, pop_many k h = Ret (h', ps)
    ∧ valid h' ∧ heap_property h' ∧ size h' = size h - Z.of_nat k
    ∧ length ps = k
    ∧ contents h ≡ₚ ps ++ contents h'
    ∧ StronglySorted Z.le (weight <$> ps).
Proof.
  induction k as [|k IH]; intros h Hvalid Hheap Hsz.
  - exists h, []. simpl. split; [done|]. split; [done|]. split; [done|].
    split; [lia|]. split; [done|]. split; [done|]. constructor.
  - destruct (pop_min h Hvalid Hheap)
      as (h1 & n & Hpop & Hv1 & Hheap1 & Hsz1 & Hperm1 & Hmin); [lia|].
    destruct (IH h1 Hv1 Hheap1) as (h' & ps & Heq & Hv' & Hheap' & Hsz' & Hlen & Hperm & Hsorted);
      [lia|].
    exists h', (Ptr n :: ps). cbn [pop_many].
    rewrite Hpop, bind_Ret. rewrite Heq, bind_Ret.
    split; [done|]. split; [done|]. split; [done|]. split; [lia|].
    split; [by simpl; rewrite Hlen|].
    split; [by rewrite Hperm1, Hperm|].
    simpl. constructor; [done|].
    apply Forall_fmap, Forall_forall. intros p Hp. simpl.
    apply Hmin. rewrite Hperm1, Hperm.
    apply elem_of_cons. right. apply elem_of_app. by left.
Qed.

(** ** The full-array scan decides the heap property *)

Lemma parent_nat_child (c : nat) :
  (1 ≤ c)%nat →
  (c = 2 * ((c - 1) / 2) + 1 ∨ c = 2 * ((c - 1) / 2) + 2)%nat.
Proof.
  intros Hc. pose proof (Nat.div_mod_eq (c - 1) 2).
  pose proof (Nat.mod_upper_bound (c - 1) 2). lia.
Qed.

Lemma parent_nat_of_child (i c : nat) :
  (c = 2 * i + 1 ∨ c = 2 * i + 2)%nat → ((c - 1) / 2)%nat = i.
Proof.
  intros Hc. symmetry.
  destruct Hc as [-> | ->].
  - apply (Nat.div_unique _ 2 i 0); lia.
  - apply (Nat.div_unique _ 2 i 1); lia.
Qed.

Lemma heap_scan_correct h : heap_scan h = true ↔ heap_property h.
Proof.
  unfold heap_scan, heap_property. rewrite forallb_forall. split.
  - intros Hscan i c n m Hi Hc Hcsz Hn Hm.
    specialize (Hscan (Z.to_nat c)).
    rewrite (parent_nat_of_child (Z.to_nat i)) in Hscan by lia.
    unfold read in Hn, Hm.
    rewrite decide_True in Hn by lia. rewrite decide_True in Hm by lia.
    destruct (array h !! Z.to_nat i) as [p|]; [|done].
    destruct (array h !! Z.to_nat c) as [q|]; [|done].
    injection Hn as ->. injection Hm as ->.
    eapply bool_decide_eq_true_1, Hscan. apply in_seq. lia.
  - intros Hheap c [Hc1 Hc2]%in_seq.
    destruct (array h !! ((c - 1) / 2)%nat) as [[|n]|] eqn:En; try done.
    destruct (array h !! c) as [[|m]|] eqn:Em; try done.
    apply bool_decide_eq_true_2.
    apply (Hheap (Z.of_nat ((c - 1) / 2)) (Z.of_nat c)).
    + lia.
    + destruct (parent_nat_child c); lia.
    + lia.
    + apply read_lookup; [lia | by rewrite Nat2Z.id].
    + apply read_lookup; [lia | by rewrite Nat2Z.id].
Qed.

(** ** More fuel does not change a result of [heapify_rec] *)

Lemma heapify_rec_mono fuel : ∀ h index h',
  heapify_rec fuel h index = Ret h' → heapify_rec (S fuel) h index = Ret h'.
Proof.
  induction fuel as [|fuel IH]; intros h index h'; [done|].
  remember (S fuel) as fuel1 eqn:Hf.
  rewrite Hf at 1. cbn [heapify_rec].
  repeat destruct_bind.
  all: match goal with
       | |- context [decide (?x ≠ ?y)] => destruct (decide (x ≠ y))
       end; first [done | apply IH].
Qed.

Lemma heapify_rec_fuel fuel fuel' h index h' :
  (fuel ≤ fuel')%nat →
  heapify_rec fuel h index = Ret h' → heapify_rec fuel' h index = Ret h'.
Proof.
  induction 1 as [|fuel' _ IH]; [done|].
  intros H. by apply heapify_rec_mono, IH.
Qed.

(** ** Ties between the children *)

Lemma heapify_tie_left h index l r p :
  valid h → 0 ≤ index → 2 * index + 2 < size h →
  read (array h) (2 * index + 1) = Ret (Ptr l) →
  read (array h) (2 * index + 2) = Ret (Ptr r) →
  read (array h) index = Ret (Ptr p) →
  freq l = freq r → freq l < freq p →
  ∃ arr h',
    swap_node (array h) (2 * index + 1) index = Ret arr
    ∧ heapify (set_array h arr) (2 * index + 1) = Ret h'
    ∧ heapify h index = Ret h'.
Proof.
  intros Hvalid Hidx Hsz [_ Hl]%read_Ret_sel [_ Hr]%read_Ret_sel
    [_ Hp]%read_Ret_sel Htie Hlt.
  pose proof Hvalid as [(Hsize & Hmax & Hptr) Hcap]%valid_live.
  set (arr := swapped (array h) (2 * index + 1) index).
  assert (Hswap : swap_node (array h) (2 * index + 1) index = Ret arr)
    by (apply swap_node_Ret; lia).
  assert (Hv : valid (set_array h arr)).
  { apply valid_live. unfold set_array, arr; simpl. rewrite length_swapped.
    split; [|done]. apply live_swapped; [lia | lia | done]. }
  destruct (heapify_spec (set_array h arr) (2 * index + 1) Hv)
    as (h' & Heq & _); [int_range|].
  exists arr, h'. split; [done|]. split; [done|].
  unfold heapify. cbn [heapify_rec].
  rewrite (int_Ret (2 * index)) by int_range. rewrite bind_Ret.
  rewrite (int_Ret (2 * index + 1)) by int_range. rewrite !bind_Ret.
  rewrite (int_Ret (2 * index + 2)) by int_range. rewrite bind_Ret.
  assert (Hwl : wt (array h) (2 * index + 1) = freq l) by (unfold wt; by rewrite Hl).
  assert (Hwr : wt (array h) (2 * index + 2) = freq r) by (unfold wt; by rewrite Hr).
  assert (Hwp : wt (array h) index = freq p) by (unfold wt; by rewrite Hp).
  rewrite decide_True by lia.
  rewrite (freq_at_wt _ (2 * index + 1)) by (try apply Hptr; lia).
  rewrite (freq_at_wt _ index) by (try apply Hptr; lia).
  rewrite !bind_Ret. rewrite Hwl, Hwp. rewrite (decide_True (P := freq l < freq p)) by done.
  rewrite decide_True by lia.
  rewrite (freq_at_wt _ (2 * index + 2)) by (try apply Hptr; lia).
  rewrite (freq_at_wt _ (2 * index + 1)) by (try apply Hptr; lia).
  rewrite !bind_Ret. rewrite Hwl, Hwr.
  rewrite (decide_False (P := freq r < freq l)) by lia.
  rewrite decide_True by lia.
  rewrite Hswap, bind_Ret.
  apply (heapify_rec_fuel (S (Z.to_nat (size (set_array h arr) - (2 * index + 1)))));
    [simpl; lia | done].
Qed.

(** ** [insert] on a full heap *)

Lemma insert_full h x :
  valid h → size h = Z.of_nat (length (array h)) →
  insert h x = Undefined (OutOfBounds (size h)).
Proof.
  intros Hvalid Hfull.
  pose proof Hvalid as [(Hsz & Hmax & Hp) Hcap]%valid_live.
  unfold insert.
  rewrite int_Ret by int_range. rewrite bind_Ret.
  rewrite int_Ret by int_range. rewrite bind_Ret.
  replace (size h + 1 - 1) with (size h) by lia.
  cbn [insert_loop].
  assert (Hw : ∀ (a : list slot) y,
            length a = length (array h) →
            write a (size h) y = Undefined (OutOfBounds (size h))).
  { intros a y Hlen. unfold write. rewrite decide_False; [done | lia]. }
  destruct (decide (size h ≠ 0)) as [Hne|He].
  - destruct (parent_index (size h)) as [Hpar _]; [lia|].
    rewrite int_Ret by int_range. rewrite bind_Ret.
    rewrite freq_at_wt by (try apply Hp; lia). rewrite bind_Ret.
    case_decide.
    + rewrite read_sel by lia. rewrite bind_Ret. by rewrite Hw.
    + rewrite bind_Ret. by rewrite Hw.
  - rewrite bind_Ret. by rewrite Hw.
Qed.

(** ** [pop] on an empty heap *)

Lemma pop_empty h :
  size h = 0 →
  pop h = Undefined (OutOfBounds (match array h with [] => 0 | _ => -1 end)).
Proof.
  intros Hsz. unfold pop. rewrite Hsz.
  destruct (array h) as [|p a]; [done|]. reflexivity.
Qed.

(** ** Counting leaves and internal nodes *)

Lemma count_inv_Permutation n l l' : l ≡ₚ l' → count_inv n l → count_inv n l'.
Proof.
  intros Hperm [Hl Hi]. unfold count_inv.
  rewrite <- (total_Permutation _ _ _ Hperm), <- (total_Permutation _ _ _ Hperm).
  by rewrite <- Hperm.
Qed.

Lemma count_inv_merge n l r rest :
  count_inv n (Ptr l :: Ptr r :: rest) → count_inv n (Ptr (merge_node l r) :: rest).
Proof.
  unfold count_inv. simpl. intros [Hl Hi].
  destruct l, r; simpl in *. lia.
Qed.

Lemma count_inv_leaf_slots symbols :
  count_inv (Z.of_nat (length symbols)) (leaf_slots symbols).
Proof.
  unfold count_inv. induction symbols as [|[c f] symbols [IH1 IH2]]; [done|].
  cbn [leaf_slots fmap list_fmap total foldr length] in *.
  fold (leaf_slots symbols) in *. simpl slot_leaves. simpl slot_internal_nodes.
  unfold total in *. lia.
Qed.

Lemma length_contents h : valid h → Z.of_nat (length (contents h)) = size h.
Proof. intros (Hsz & _). unfold contents. rewrite length_take. lia. Qed.

(** ** Weights of the trees in the heap *)

Lemma weights_wrap_Permutation T l l' :
  l ≡ₚ l' → weights_wrap T l → weights_wrap T l'.
Proof.
  intros Hperm [Ht Hall]. unfold weights_wrap.
  rewrite <- (total_Permutation _ _ _ Hperm). by rewrite <- Hperm.
Qed.

Lemma weights_exact_Permutation l l' :
  l ≡ₚ l' → weights_exact l → weights_exact l'.
Proof.
  intros Hperm [Ht Hall]. unfold weights_exact.
  rewrite <- (total_Permutation _ _ _ Hperm). by rewrite <- Hperm.
Qed.

Lemma leaf_weight_sum_merge_node l r :
  leaf_weight_sum (merge_node l r) = leaf_weight_sum l + leaf_weight_sum r.
Proof. destruct l, r; reflexivity. Qed.

Lemma weights_wrap_merge T l r rest :
  weights_wrap T (Ptr l :: Ptr r :: rest) →
  weights_wrap T (Ptr (merge_node l r) :: rest).
Proof.
  intros [Ht Hall]. apply Forall_cons in Hall as [Hl Hall].
  apply Forall_cons in Hall as [Hr Hall].
  destruct (Hl l eq_refl) as [Hfl Hsl]. destruct (Hr r eq_refl) as [Hfr Hsr].
  split.
  - cbn [total foldr slot_leaf_weight_sum] in *.
    rewrite leaf_weight_sum_merge_node. unfold total in *. lia.
  - constructor; [|done]. intros t [= <-]. split.
    + rewrite leaf_weight_sum_merge_node. cbn [merge_node freq].
      unfold uadd. rewrite Hfl, Hfr. unfold to_unsigned.
      by rewrite <- Zplus_mod.
    + destruct l, r; simpl in *; done.
Qed.

Lemma total_leaf_weight_sum_nonneg l :
  Forall (fun p => ∀ t, p = Ptr t →
      freq t = leaf_weight_sum t ∧ 0 ≤ freq t ∧ adds_children t) l →
  0 ≤ total slot_leaf_weight_sum l.
Proof.
  induction 1 as [|p l Hp _ IH]; [done|].
  cbn [total foldr]. fold (total slot_leaf_weight_sum l).
  destruct p as [|t]; simpl; [lia|].
  destruct (Hp t eq_refl) as (? & ? & _). lia.
Qed.

Lemma weights_exact_merge l r rest :
  weights_exact (Ptr l :: Ptr r :: rest) →
  weights_exact (Ptr (merge_node l r) :: rest).
Proof.
  intros [Ht Hall]. apply Forall_cons in Hall as [Hl Hall].
  apply Forall_cons in Hall as [Hr Hall].
  destruct (Hl l eq_refl) as (Hfl & Hnl & Hal).
  destruct (Hr r eq_refl) as (Hfr & Hnr & Har).
  pose proof (total_leaf_weight_sum_nonneg rest Hall) as Hrest.
  cbn [total foldr slot_leaf_weight_sum] in Ht.
  fold (total slot_leaf_weight_sum rest) in Ht.
  assert (Hadd : uadd (freq l) (freq r) = freq l + freq r).
  { unfold uadd. apply to_unsigned_small. lia. }
  split.
  - cbn [total foldr slot_leaf_weight_sum].
    fold (total slot_leaf_weight_sum rest).
    rewrite leaf_weight_sum_merge_node. lia.
  - constructor; [|done]. intros t [= <-].
    rewrite leaf_weight_sum_merge_node. cbn [merge_node freq].
    rewrite Hadd. split; [lia|]. split; [lia|].
    destruct l, r; simpl in *. rewrite <- Hadd. done.
Qed.

Lemma weights_wrap_leaf_slots symbols :
  weights_wrap (total (fun p => to_unsigned p.2) symbols) (leaf_slots symbols).
Proof.
  unfold weights_wrap. induction symbols as [|[c f] symbols [IH1 IH2]].
  - split; [done | constructor].
  - split.
    + cbn [leaf_slots fmap list_fmap total foldr]. fold (leaf_slots symbols).
      unfold total in *. rewrite IH1. done.
    + constructor; [|done]. intros t [= <-]. simpl.
      by rewrite to_unsigned_idemp.
Qed.

Lemma total_snd_nonneg (symbols : list (ascii * Z)) :
  Forall (fun p => 0 ≤ p.2) symbols → 0 ≤ total snd symbols.
Proof.
  induction 1 as [|p l Hp _ IH]; [done|].
  cbn [total foldr]. fold (total snd l). lia.
Qed.

Lemma weights_exact_leaf_slots symbols :
  Forall (fun p => 0 ≤ p.2) symbols → total snd symbols ≤ UINT_MAX →
  weights_exact (leaf_slots symbols)
  ∧ total slot_leaf_weight_sum (leaf_slots symbols) = total snd symbols.
Proof.
  induction 1 as [|[c f] symbols Hp Hall IH]; intros Hsum.
  - split; [split; [done | constructor] | done].
  - cbn [total foldr snd] in Hsum. fold (total snd symbols) in Hsum.
    pose proof (total_snd_nonneg symbols Hall). simpl in Hp.
    destruct IH as [[IH1 IH2] IH3]; [lia|].
    assert (Hf : to_unsigned f = f) by (apply to_unsigned_small; lia).
    assert (Ht : total slot_leaf_weight_sum (leaf_slots ((c, f) :: symbols))
                 = f + total snd symbols).
    { cbn [leaf_slots fmap list_fmap total foldr]. fold (leaf_slots symbols).
      fold (total slot_leaf_weight_sum (leaf_slots symbols)).
      rewrite IH3. simpl. by rewrite Hf. }
    split; [split|].
    + rewrite Ht. lia.
    + cbn [leaf_slots fmap list_fmap]. constructor; [|done].
      intros t [= <-]. simpl. rewrite Hf. done.
    + rewrite Ht. done.
Qed.

(** ** The fuel never runs out *)

Lemma bind_total {A B} (m : outcome A) (k : A → outcome B) :
  m ≠ OutOfFuel → (∀ a, m = Ret a → k a ≠ OutOfFuel) → m ≫= k ≠ OutOfFuel.
Proof. destruct m; simpl; intros; [auto | done | done]. Qed.

Lemma int_total z : int z ≠ OutOfFuel.
Proof. unfold int. by case_decide. Qed.

Lemma int_Ret_inv z a : int z = Ret a → a = z.
Proof. unfold int. case_decide; [|done]. by intros [= ->]. Qed.

Lemma read_total {A} (a : list A) i : read a i ≠ OutOfFuel.
Proof. unfold read. case_decide; [|done]. by destruct (a !! Z.to_nat i). Qed.

Lemma read_Ret_inv {A} (a : list A) i x : read a i = Ret x → 0 ≤ i.
Proof. unfold read. by case_decide. Qed.

Lemma write_total {A} (a : list A) i x : write a i x ≠ OutOfFuel.
Proof. unfold write. by case_decide. Qed.

Lemma deref_total p : deref p ≠ OutOfFuel.
Proof. by destruct p. Qed.

Lemma freq_at_total a i : freq_at a i ≠ OutOfFuel.
Proof.
  unfold freq_at. apply bind_total; [apply read_total|]. intros p _.
  apply bind_total; [apply deref_total | done].
Qed.

Lemma freq_at_Ret_inv a i w : freq_at a i = Ret w → 0 ≤ i.
Proof.
  unfold freq_at. intros (p & Hp & _)%bind_Ret_inv. by apply read_Ret_inv in Hp.
Qed.

Lemma swap_node_total arr a b : swap_node arr a b ≠ OutOfFuel.
Proof.
  unfold swap_node. apply bind_total; [apply read_total|]. intros t _.
  apply bind_total; [apply read_total|]. intros vb _.
  apply bind_total; [apply write_total|]. intros arr' _. apply write_total.
Qed.

(** One comparison of [heapify]: the candidate child against the smallest
    so far. *)
Lemma select_child (a : list slot) (sz cand cur : Z) :
  let r := if decide (cand < sz) then
             fl ← freq_at a cand; fs ← freq_at a cur;
             Ret (if decide (fl < fs) then cand else cur)
           else Ret cur in
  r ≠ OutOfFuel
  ∧ ∀ res, r = Ret res →
      res = cur ∨ (res = cand ∧ cand < sz ∧ 0 ≤ cand ∧ 0 ≤ cur).
Proof.
  simpl. destruct (decide (cand < sz)) as [Hlt|Hge].
  - split.
    + apply bind_total; [apply freq_at_total|]. intros fl _.
      apply bind_total; [apply freq_at_total | done].
    + intros res (fl & Hfl & (fs & Hfs & Hres)%bind_Ret_inv)%bind_Ret_inv.
      apply freq_at_Ret_inv in Hfl, Hfs. injection Hres as <-.
      case_decide; auto.
  - split; [done|]. intros res [= <-]. by left.
Qed.

Lemma heapify_rec_total fuel : ∀ h index,
  (Z.to_nat (size h - index) < fuel)%nat →
  heapify_rec fuel h index ≠ OutOfFuel.
Proof.
  induction fuel as [|fuel IH]; intros h index Hfuel; [lia|].
  cbn [heapify_rec].
  apply bind_total; [apply int_total|]. intros l2 ->%int_Ret_inv.
  apply bind_total; [apply int_total|]. intros left ->%int_Ret_inv.
  apply bind_total; [apply int_total|]. intros r2 ->%int_Ret_inv.
  apply bind_total; [apply int_total|]. intros right ->%int_Ret_inv.
  destruct (select_child (array h) (size h) (2 * index + 1) index) as [Ht1 Hs1].
  apply bind_total; [exact Ht1|]. intros s1 Hs1'. apply Hs1 in Hs1'.
  destruct (select_child (array h) (size h) (2 * index + 2) s1) as [Ht2 Hs2].
  apply bind_total; [exact Ht2|]. intros s2 Hs2'. apply Hs2 in Hs2'.
  destruct (decide (s2 ≠ index)); [|done].
  apply bind_total; [apply swap_node_total|]. intros arr _.
  apply IH. simpl. lia.
Qed.

Theorem heapify_total h index : heapify h index ≠ OutOfFuel.
Proof. apply heapify_rec_total. lia. Qed.

Lemma heapify_rec_size fuel : ∀ h index h',
  heapify_rec fuel h index = Ret h' → size h' = size h.
Proof.
  induction fuel as [|fuel IH]; intros h index h'; [done|].
  cbn [heapify_rec]. repeat destruct_bind.
  all: match goal with
       | |- context [decide (?x ≠ ?y)] => destruct (decide (x ≠ y))
       end; first [done | by intros ->%IH | by intros [= <-]].
Qed.

Lemma heapify_size h index h' : heapify h index = Ret h' → size h' = size h.
Proof. apply heapify_rec_size. Qed.

Lemma pop_total h : pop h ≠ OutOfFuel.
Proof.
  unfold pop. apply bind_total; [apply read_total|]. intros temp _.
  apply bind_total; [apply int_total|]. intros last_i _.
  apply bind_total; [apply read_total|]. intros last _.
  apply bind_total; [apply write_total|]. intros arr _.
  apply bind_total; [apply int_total|]. intros sz _.
  apply bind_total; [apply heapify_total | done].
Qed.

Lemma pop_size h h' p : pop h = Ret (h', p) → size h' = size h - 1 ∧ 1 ≤ size h.
Proof.
  unfold pop.
  intros (temp & _ & (last_i & ->%int_Ret_inv & (last & Hlast%read_Ret_inv &
    (arr & _ & (sz & ->%int_Ret_inv & (h1 & Hh1%heapify_size & [= <- _])
    %bind_Ret_inv)%bind_Ret_inv)%bind_Ret_inv)%bind_Ret_inv)%bind_Ret_inv)
    %bind_Ret_inv.
  simpl in Hh1. lia.
Qed.

Lemma insert_loop_total x fuel : ∀ arr i,
  (Z.to_nat i < fuel)%nat → insert_loop fuel arr x i ≠ OutOfFuel.
Proof.
  induction fuel as [|fuel IH]; intros arr i Hfuel; [lia|].
  cbn [insert_loop]. case_decide; [|done].
  apply bind_total; [apply int_total|]. intros i1 ->%int_Ret_inv.
  apply bind_total; [apply freq_at_total|]. intros fp Hfp%freq_at_Ret_inv.
  case_decide; [|done].
  apply bind_total; [apply read_total|]. intros parent _.
  apply bind_total; [apply write_total|]. intros arr' _.
  apply IH.
  destruct (decide (i - 1 < 0)) as [Hneg|Hpos].
  - pose proof (quot2_neg (i - 1) Hneg). lia.
  - pose proof (quot2_nonneg (i - 1)). lia.
Qed.

Lemma insert_total h x : insert h x ≠ OutOfFuel.
Proof.
  unfold insert. apply bind_total; [apply int_total|]. intros sz _.
  apply bind_total; [apply int_total|]. intros i _.
  apply bind_total; [apply insert_loop_total; lia|]. intros [arr i'] _.
  apply bind_total; [apply write_total | done].
Qed.

Lemma insert_size h x h' : insert h x = Ret h' → size h' = size h + 1.
Proof.
  unfold insert.
  intros (sz & ->%int_Ret_inv & (i & _ & ([arr i'] & _ & (arr' & _ & [= <-])
    %bind_Ret_inv)%bind_Ret_inv)%bind_Ret_inv)%bind_Ret_inv.
  done.
Qed.

Lemma build_min_heap_loop_total fuel : ∀ h i,
  (Z.to_nat (i + 1) < fuel)%nat → build_min_heap_loop fuel h i ≠ OutOfFuel.
Proof.
  induction fuel as [|fuel IH]; intros h i Hfuel; [lia|].
  cbn [build_min_heap_loop]. case_decide; [|done].
  apply bind_total; [apply heapify_total|]. intros h' _.
  apply bind_total; [apply int_total|]. intros i' ->%int_Ret_inv.
  apply IH. lia.
Qed.

Lemma build_min_heap_total h : build_min_heap h ≠ OutOfFuel.
Proof.
  unfold build_min_heap. apply bind_total; [apply int_total|]. intros n _.
  apply bind_total; [apply int_total|]. intros n1 _.
  apply build_min_heap_loop_total. lia.
Qed.

Lemma fill_loop_total fuel : ∀ arr item freq size i,
  (Z.to_nat (size - i) < fuel)%nat →
  fill_loop fuel arr item freq size i ≠ OutOfFuel.
Proof.
  induction fuel as [|fuel IH]; intros arr item freq size i Hfuel; [lia|].
  cbn [fill_loop]. case_decide; [|done].
  apply bind_total; [apply read_total|]. intros c _.
  apply bind_total; [apply read_total|]. intros f _.
  apply bind_total; [apply write_total|]. intros arr' _.
  apply bind_total; [apply int_total|]. intros i' ->%int_Ret_inv.
  apply IH. lia.
Qed.

Lemma create_and_build_min_heap_total item freq size :
  create_and_build_min_heap item freq size ≠ OutOfFuel.
Proof.
  unfold create_and_build_min_heap.
  apply bind_total; [apply fill_loop_total; lia|]. intros arr _.
  apply build_min_heap_total.
Qed.

Lemma merge_step_total h : merge_step h ≠ OutOfFuel.
Proof.
  unfold merge_step. apply bind_total; [apply pop_total|]. intros [h1 l_p] _.
  apply bind_total; [apply pop_total|]. intros [h2 r_p] _.
  apply bind_total; [apply deref_total|]. intros l _.
  apply bind_total; [apply deref_total|]. intros r _.
  apply insert_total.
Qed.

Lemma merge_step_size h h' :
  merge_step h = Ret h' → size h' = size h - 1 ∧ 2 ≤ size h.
Proof.
  unfold merge_step.
  intros ([h1 l_p] & [Hs1 ?]%pop_size & ([h2 r_p] & [Hs2 ?]%pop_size &
    (l & _ & (r & _ & Hins%insert_size)%bind_Ret_inv)%bind_Ret_inv)
    %bind_Ret_inv)%bind_Ret_inv.
  lia.
Qed.

Lemma huffman_loop_total fuel : ∀ h,
  (Z.to_nat (size h) < fuel)%nat → huffman_loop fuel h ≠ OutOfFuel.
Proof.
  induction fuel as [|fuel IH]; intros h Hfuel; [lia|].
  cbn [huffman_loop]. destruct (check_size h); cbn [negb].
  - apply bind_total; [apply pop_total|]. by intros [h' root] _.
  - apply bind_total; [apply merge_step_total|].
    intros h' [Hsz ?]%merge_step_size. apply IH. lia.
Qed.

(** X20. [build_huffman_tree] comes to an end on every input, well formed
    or not: [heapify] recurses at most [size - index] times and the loops
    run at most [size] times, so the call returns or faults and the bound
    on its steps is never reached. *)
Theorem build_huffman_tree_total item freq size :
  build_huffman_tree item freq size ≠ OutOfFuel.
Proof.
  unfold build_huffman_tree.
  apply bind_total; [apply create_and_build_min_heap_total|]. intros h _.
  apply huffman_loop_total. lia.
Qed.

(** * The concrete scenario of the specification *)

(** The six-symbol table gives a root of weight 100 and a tree of cost 224. *)
Example build_sample_symbols :
  ∃ t, build sample_symbols = Ret (Ptr t)
    ∧ freq t = 100 ∧ weighted_depth 0 t = 224.
Proof. eexists. split; [vm_compute; reflexivity | split; reflexivity]. Qed.

(** * The claims of the specification *)

(** C1. For a non-empty input of [n] pairs, the loop of
    [build_huffman_tree] runs exactly [n - 1] times: [check_size] is false
    after each of the first [n - 2] iterations and true after iteration
    [n - 1], the trees in the heap hold [k] internal nodes after [k]
    iterations, and the returned tree has [n] leaves and [n - 1] internal
    nodes. *)
Theorem build_merge_count symbols :
  symbols ≠ [] → Z.of_nat (length symbols) ≤ MAX_SLOTS →
  ∃ h0 t,
    create_and_build_min_heap (symbols.*1) (symbols.*2)
      (Z.of_nat (length symbols)) = Ret h0
    ∧ (∀ k, (k ≤ length symbols - 1)%nat →
         ∃ hk, merge_steps k h0 = Ret hk
           ∧ check_size hk = bool_decide (k = (length symbols - 1)%nat)
           ∧ total slot_internal_nodes (contents hk) = Z.of_nat k)
    ∧ build symbols = Ret (Ptr t)
    ∧ leaves t = length symbols
    ∧ internal_nodes t = (length symbols - 1)%nat.
Proof.
  intros Hne Hmax.
  assert (1 ≤ Z.of_nat (length symbols)) by (destruct symbols; simpl; [done | lia]).
  destruct (create_and_build_min_heap_spec symbols Hmax)
    as (h0 & Heq & Hsz & Hcap & Hlen & Hv0 & Hc0 & _).
  set (n := Z.of_nat (length symbols)) in *.
  assert (Hsteps : ∀ k, (k ≤ length symbols - 1)%nat →
            ∃ hk, merge_steps k h0 = Ret hk ∧ valid hk
              ∧ size hk = n - Z.of_nat k ∧ count_inv n (contents hk)).
  { intros k Hk.
    destruct (merge_steps_inv (count_inv n) (count_inv_Permutation n)
                (count_inv_merge n) k h0 Hv0)
      as (hk & Heqk & Hszk & _ & _ & Hvk & HIk & _).
    - lia.
    - apply (count_inv_Permutation n (leaf_slots symbols)); [done|].
      apply count_inv_leaf_slots.
    - exists hk. rewrite Hszk, Hsz. done. }
  destruct (Hsteps (length symbols - 1)%nat) as (h1 & Heq1 & Hv1 & Hsz1 & HI1); [lia|].
  destruct (pop_last h1 Hv1) as (h' & t & Hpop & Hc1); [lia|].
  exists h0, t. split; [done|]. split; [|split; [|split]].
  - intros k Hk. destruct (Hsteps k Hk) as (hk & Heqk & Hvk & Hszk & [_ Hik]).
    exists hk. split; [done|]. split.
    + unfold check_size. rewrite Hszk. apply bool_decide_ext. lia.
    + rewrite length_contents in Hik by done. lia.
  - unfold build, build_huffman_tree, huffman_while. fold n.
    rewrite Heq, bind_Ret.
    rewrite huffman_loop_merge_steps by (done || lia).
    replace (Z.to_nat (size h0 - 1)) with (length symbols - 1)%nat by lia.
    rewrite Heq1, bind_Ret. rewrite Hpop. done.
  - apply (count_inv_Permutation n _ _ Hc1) in HI1 as [Hl _].
    simpl in Hl. lia.
  - apply (count_inv_Permutation n _ _ Hc1) in HI1 as [_ Hi].
    simpl in Hi. lia.
Qed.

Lemma build_merge_count_sample :
  sample_symbols ≠ [] ∧ Z.of_nat (length sample_symbols) ≤ MAX_SLOTS ∧
  ∃ h0 t,
    create_and_build_min_heap (sample_symbols.*1) (sample_symbols.*2)
      (Z.of_nat (length sample_symbols)) = Ret h0
    ∧ (∀ k, (k ≤ length sample_symbols - 1)%nat →
         ∃ hk, merge_steps k h0 = Ret hk
           ∧ check_size hk = bool_decide (k = (length sample_symbols - 1)%nat)
           ∧ total slot_internal_nodes (contents hk) = Z.of_nat k)
    ∧ build sample_symbols = Ret (Ptr t)
    ∧ leaves t = length sample_symbols
    ∧ internal_nodes t = (length sample_symbols - 1)%nat.
Proof.
  assert (Hne : sample_symbols ≠ []) by discriminate.
  assert (Hmax : Z.of_nat (length sample_symbols) ≤ MAX_SLOTS)
    by (vm_compute; discriminate).
  split; [exact Hne | split; [exact Hmax |]].
  exact (build_merge_count sample_symbols Hne Hmax).
Defined.

(** C2. On a heap that satisfies the heap property, [pop] returns a node
    whose weight is at most the weight of every node in the heap; and
    popping all [size] nodes returns them in non-decreasing order of
    weight. *)
Theorem pop_returns_minimum h :
  valid h → heap_property h →
  (1 ≤ size h →
     ∃ h' n, pop h = Ret (h', Ptr n)
       ∧ ∀ m, Ptr m ∈ contents h → freq n ≤ freq m)
  ∧ ∃ h' ps, pop_many (Z.to_nat (size h)) h = Ret (h', ps)
      ∧ length ps = Z.to_nat (size h)
      ∧ ps ≡ₚ contents h
      ∧ StronglySorted Z.le (weight <$> ps).
Proof.
  intros Hvalid Hheap. split.
  - intros Hsz.
    destruct (pop_min h Hvalid Hheap Hsz) as (h' & n & Hpop & _ & _ & _ & _ & Hmin).
    exists h', n. split; [done|]. intros m Hm. apply (Hmin (Ptr m) Hm).
  - pose proof Hvalid as (Hsz & _).
    destruct (pop_many_spec (Z.to_nat (size h)) h Hvalid Hheap)
      as (h' & ps & Heq & _ & _ & Hsz' & Hlen & Hperm & Hsorted); [lia|].
    exists h', ps. split; [done|]. split; [done|]. split; [|done].
    rewrite Hperm. unfold contents.
    replace (Z.to_nat (size h')) with 0%nat by lia.
    by rewrite take_0, app_nil_r.
Qed.

Lemma sample_symbols_fit : Z.of_nat (length sample_symbols) ≤ MAX_SLOTS.
Proof. vm_compute. discriminate. Defined.

Lemma sample_heap_valid : valid sample_heap.
Proof. apply (bool_decide_unpack _). vm_compute. exact I. Defined.

Lemma sample_heap_property : heap_property sample_heap.
Proof. apply heap_scan_correct. vm_compute. reflexivity. Defined.

Lemma pop_returns_minimum_sample :
  valid sample_heap ∧ heap_property sample_heap ∧ 1 ≤ size sample_heap
  ∧ (∃ h' n, pop sample_heap = Ret (h', Ptr n)
       ∧ ∀ m, Ptr m ∈ contents sample_heap → freq n ≤ freq m)
  ∧ ∃ h' ps, pop_many (Z.to_nat (size sample_heap)) sample_heap = Ret (h', ps)
      ∧ length ps = Z.to_nat (size sample_heap)
      ∧ ps ≡ₚ contents sample_heap
      ∧ StronglySorted Z.le (weight <$> ps).
Proof.
  assert (Hsz : 1 ≤ size sample_heap) by (vm_compute; discriminate).
  split; [exact sample_heap_valid | split; [exact sample_heap_property |]].
  split; [exact Hsz |].
  destruct (pop_returns_minimum sample_heap sample_heap_valid
              sample_heap_property) as [Hmin Hall].
  split; [exact (Hmin Hsz) | exact Hall].
Defined.

(** C3. The heap property holds after [insert] and after [pop] when it
    held before, and after [build_min_heap] and
    [create_and_build_min_heap] whatever the order of the input. *)
Theorem heap_property_preserved h symbols :
  valid h → Z.of_nat (length symbols) ≤ MAX_SLOTS →
  (heap_property h → size h < capacity h →
     ∀ x, ∃ h', insert h x = Ret h' ∧ valid h' ∧ heap_property h')
  ∧ (heap_property h → 1 ≤ size h →
     ∃ h' p, pop h = Ret (h', p) ∧ valid h' ∧ heap_property h')
  ∧ (∃ h', build_min_heap h = Ret h' ∧ valid h' ∧ heap_property h')
  ∧ (∃ h', create_and_build_min_heap (symbols.*1) (symbols.*2)
             (Z.of_nat (length symbols)) = Ret h'
       ∧ valid h' ∧ heap_property h').
Proof.
  intros Hvalid Hmax. split; [|split; [|split]].
  - intros Hheap Hroom x.
    destruct (insert_spec h x Hvalid)
      as (h' & Heq & _ & _ & _ & Hv' & _ & Hheap').
    { destruct Hvalid as (_ & Hcap & _). lia. }
    exists h'. auto.
  - intros Hheap Hsz.
    destruct (pop_spec h Hvalid Hsz)
      as (h' & n & Heq & _ & _ & _ & _ & Hv' & _ & Hheap').
    exists h', (Ptr n). auto.
  - destruct (build_min_heap_spec h Hvalid)
      as (h' & Heq & _ & _ & _ & Hv' & _ & Hheap').
    exists h'. auto.
  - destruct (create_and_build_min_heap_spec symbols Hmax)
      as (h' & Heq & _ & _ & _ & Hv' & _ & Hheap').
    exists h'. auto.
Qed.

Lemma heap_property_preserved_sample :
  valid sample_heap ∧ Z.of_nat (length sample_symbols) ≤ MAX_SLOTS
  ∧ heap_property sample_heap
  ∧ size sample_heap < capacity sample_heap ∧ 1 ≤ size sample_heap
  ∧ (∀ x, ∃ h', insert sample_heap x = Ret h' ∧ valid h' ∧ heap_property h')
  ∧ (∃ h' p, pop sample_heap = Ret (h', p) ∧ valid h' ∧ heap_property h')
  ∧ (∃ h', build_min_heap sample_heap = Ret h' ∧ valid h' ∧ heap_property h')
  ∧ (∃ h', create_and_build_min_heap (sample_symbols.*1) (sample_symbols.*2)
             (Z.of_nat (length sample_symbols)) = Ret h'
       ∧ valid h' ∧ heap_property h').
Proof.
  assert (Hroom : size sample_heap < capacity sample_heap) by reflexivity.
  assert (Hsz : 1 ≤ size sample_heap) by (vm_compute; discriminate).
  split; [exact sample_heap_valid | split; [exact sample_symbols_fit |]].
  split; [exact sample_heap_property | split; [exact Hroom | split; [exact Hsz |]]].
  destruct (heap_property_preserved sample_heap sample_symbols
              sample_heap_valid sample_symbols_fit)
    as (Hins & Hpop & Hbuild & Hcreate).
  split; [exact (Hins sample_heap_property Hroom) |].
  split; [exact (Hpop sample_heap_property Hsz) |].
  split; [exact Hbuild | exact Hcreate].
Defined.

(** C10. The heap operations keep the multiset of stored nodes: [insert]
    adds the inserted node, [pop] removes the returned node,
    [build_min_heap] permutes the slots in use, and
    [create_and_build_min_heap] stores exactly one leaf per input pair. *)
Theorem contents_preserved h symbols :
  valid h → Z.of_nat (length symbols) ≤ MAX_SLOTS →
  (size h < capacity h →
     ∀ x, ∃ h', insert h x = Ret h' ∧ contents h' ≡ₚ Ptr x :: contents h)
  ∧ (1 ≤ size h →
     ∃ h' p, pop h = Ret (h', p) ∧ contents h ≡ₚ p :: contents h')
  ∧ (∃ h', build_min_heap h = Ret h' ∧ contents h' ≡ₚ contents h)
  ∧ (∃ h', create_and_build_min_heap (symbols.*1) (symbols.*2)
             (Z.of_nat (length symbols)) = Ret h'
       ∧ contents h' ≡ₚ leaf_slots symbols).
Proof.
  intros Hvalid Hmax. split; [|split; [|split]].
  - intros Hroom x.
    destruct (insert_spec h x Hvalid)
      as (h' & Heq & _ & _ & _ & _ & Hperm & _).
    { destruct Hvalid as (_ & Hcap & _). lia. }
    exists h'. auto.
  - intros Hsz.
    destruct (pop_spec h Hvalid Hsz)
      as (h' & n & Heq & _ & _ & _ & _ & _ & Hperm & _).
    exists h', (Ptr n). auto.
  - destruct (build_min_heap_spec h Hvalid)
      as (h' & Heq & _ & _ & _ & _ & Hperm & _).
    exists h'. auto.
  - destruct (create_and_build_min_heap_spec symbols Hmax)
      as (h' & Heq & _ & _ & _ & _ & Hperm & _).
    exists h'. auto.
Qed.

Lemma contents_preserved_sample :
  valid sample_heap ∧ Z.of_nat (length sample_symbols) ≤ MAX_SLOTS
  ∧ size sample_heap < capacity sample_heap ∧ 1 ≤ size sample_heap
  ∧ (∀ x, ∃ h', insert sample_heap x = Ret h'
       ∧ contents h' ≡ₚ Ptr x :: contents sample_heap)
  ∧ (∃ h' p, pop sample_heap = Ret (h', p)
       ∧ contents sample_heap ≡ₚ p :: contents h')
  ∧ (∃ h', build_min_heap sample_heap = Ret h'
       ∧ contents h' ≡ₚ contents sample_heap)
  ∧ (∃ h', create_and_build_min_heap (sample_symbols.*1) (sample_symbols.*2)
             (Z.of_nat (length sample_symbols)) = Ret h'
       ∧ contents h' ≡ₚ leaf_slots sample_symbols).
Proof.
  assert (Hroom : size sample_heap < capacity sample_heap) by reflexivity.
  assert (Hsz : 1 ≤ size sample_heap) by (vm_compute; discriminate).
  split; [exact sample_heap_valid | split; [exact sample_symbols_fit |]].
  split; [exact Hroom | split; [exact Hsz |]].
  destruct (contents_preserved sample_heap sample_symbols
              sample_heap_valid sample_symbols_fit)
    as (Hins & Hpop & Hbuild & Hcreate).
  split; [exact (Hins Hroom) |].
  split; [exact (Hpop Hsz) |].
  split; [exact Hbuild | exact Hcreate].
Defined.

(** C4, as the code has it.  The root weight equals the sum of the leaf
    weights modulo [2^32], every internal node carrying the [unsigned] sum
    of its children's weights; the two are equal as integers when the
    input frequencies are non-negative and add up to at most [UINT_MAX]. *)
Theorem root_weight_is_leaf_sum symbols :
  symbols ≠ [] → Z.of_nat (length symbols) ≤ MAX_SLOTS →
  ∃ t, build symbols = Ret (Ptr t)
    ∧ freq t = to_unsigned (leaf_weight_sum t)
    ∧ sums_children t
    ∧ leaf_weight_sum t = total (fun p => to_unsigned p.2) symbols
    ∧ (Forall (fun p => 0 ≤ p.2) symbols → total snd symbols ≤ UINT_MAX →
         freq t = leaf_weight_sum t
         ∧ adds_children t
         ∧ freq t = total snd symbols).
Proof.
  intros Hne Hmax.
  set (T := total (fun p => to_unsigned p.2) symbols).
  set (H := Forall (fun p : ascii * Z => 0 ≤ p.2) symbols
            ∧ total snd symbols ≤ UINT_MAX).
  destruct (build_inv (fun l => weights_wrap T l ∧ (H → weights_exact l)) symbols)
    as (t & Hbuild & [Hwrap Hexact]); try done.
  - intros l l' Hperm [Hw He]. split.
    + by apply (weights_wrap_Permutation T l).
    + intros HH. by apply (weights_exact_Permutation l), He.
  - intros l r rest [Hw He]. split.
    + by apply weights_wrap_merge.
    + intros HH. by apply weights_exact_merge, He.
  - split; [apply weights_wrap_leaf_slots|].
    intros [Hnn Hsum]. by apply weights_exact_leaf_slots.
  - exists t. split; [done|].
    destruct Hwrap as [Ht Hall]. apply Forall_cons in Hall as [Hroot _].
    destruct (Hroot t eq_refl) as [Hf Hs].
    cbn [total foldr slot_leaf_weight_sum] in Ht.
    split; [done|]. split; [done|]. split; [lia|].
    intros Hnn Hsum. destruct (Hexact (conj Hnn Hsum)) as [_ Hall].
    apply Forall_cons in Hall as [Hroot' _].
    destruct (Hroot' t eq_refl) as (Hf' & _ & Ha).
    split; [done|]. split; [done|].
    destruct (weights_exact_leaf_slots symbols Hnn Hsum) as [_ Htot].
    destruct (weights_wrap_leaf_slots symbols) as [Htot' _].
    fold T in Htot'. lia.
Qed.

Lemma root_weight_is_leaf_sum_sample :
  sample_symbols ≠ [] ∧ Z.of_nat (length sample_symbols) ≤ MAX_SLOTS
  ∧ Forall (fun p => 0 ≤ p.2) sample_symbols
  ∧ total snd sample_symbols ≤ UINT_MAX
  ∧ ∃ t, build sample_symbols = Ret (Ptr t)
    ∧ freq t = to_unsigned (leaf_weight_sum t)
    ∧ sums_children t
    ∧ leaf_weight_sum t = total (fun p => to_unsigned p.2) sample_symbols
    ∧ freq t = leaf_weight_sum t
    ∧ adds_children t
    ∧ freq t = total snd sample_symbols.
Proof.
  assert (Hne : sample_symbols ≠ []) by discriminate.
  assert (Hnn : Forall (fun p : ascii * Z => 0 ≤ p.2) sample_symbols)
    by (repeat constructor; vm_compute; discriminate).
  assert (Hsum : total snd sample_symbols ≤ UINT_MAX)
    by (vm_compute; discriminate).
  split; [exact Hne | split; [exact sample_symbols_fit |]].
  split; [exact Hnn | split; [exact Hsum |]].
  destruct (root_weight_is_leaf_sum sample_symbols Hne sample_symbols_fit)
    as (t & Hbuild & Hwrap & Hsums & Hleaves & Hexact).
  destruct (Hexact Hnn Hsum) as (Heq & Hadds & Htot).
  exists t. repeat (split; [assumption |]). assumption.
Defined.

(** C4 as stated fails: three symbols of frequency [INT_MAX] give a root
    of weight 2147483645 over leaves that add up to 6442450941. *)
Lemma root_weight_wraps :
  ∃ t, build wrap_symbols = Ret (Ptr t)
    ∧ freq t = 2147483645
    ∧ leaf_weight_sum t = 6442450941
    ∧ leaf_weight_sum t ≠ freq t.
Proof.
  eexists. split; [vm_compute; reflexivity|].
  split; [reflexivity|]. split; [reflexivity|]. discriminate.
Qed.

(** C5, as the code has it.  With [size = 0] the heap has no slots and
    [check_size] is false, so the loop is entered and [pop] reads
    [array[0]] outside the storage: no tree and no error value comes back. *)
Theorem build_huffman_tree_empty item freq :
  ∃ h0, create_and_build_min_heap item freq 0 = Ret h0
    ∧ size h0 = 0 ∧ array h0 = []
    ∧ check_size h0 = false
    ∧ pop h0 = Undefined (OutOfBounds 0)
    ∧ build_huffman_tree item freq 0 = Undefined (OutOfBounds 0).
Proof. eexists. repeat split; reflexivity. Qed.

(** C5 as stated fails: [build] of the empty sequence is undefined. *)
Lemma build_empty_undefined : build [] = Undefined (OutOfBounds 0).
Proof. reflexivity. Qed.

(** C6.  A single pair gives a single leaf with that pair's weight, but the
    leaf does not carry the symbol: [new_node] never assigns [item]. *)
Theorem build_single_symbol c f :
  ∃ t, build [(c, f)] = Ret (Ptr t)
    ∧ is_leaf t = true
    ∧ freq t = to_unsigned f
    ∧ item t = None.
Proof. eexists. repeat split; reflexivity. Qed.

(** C7, as the code has it.  On a heap with [size = 0], [pop] reads
    outside the storage (slot 0 of an array without slots, else slot -1);
    with [size >= 1] it returns the node of slot 0 and lowers [size]. *)
Theorem pop_defined h :
  valid h →
  (size h = 0 →
     pop h = Undefined (OutOfBounds (match array h with [] => 0 | _ => -1 end)))
  ∧ (1 ≤ size h →
     ∃ h' n, pop h = Ret (h', Ptr n)
       ∧ read (array h) 0 = Ret (Ptr n)
       ∧ size h' = size h - 1).
Proof.
  intros Hvalid. split; [apply pop_empty|].
  intros Hsz. destruct (pop_spec h Hvalid Hsz) as (h' & n & Hpop & Hread & Hsz' & _).
  by exists h', n.
Qed.

Lemma pop_defined_sample :
  valid sample_heap ∧ 1 ≤ size sample_heap
  ∧ (∃ h' n, pop sample_heap = Ret (h', Ptr n)
       ∧ read (array sample_heap) 0 = Ret (Ptr n)
       ∧ size h' = size sample_heap - 1)
  ∧ valid (create_heap 1) ∧ size (create_heap 1) = 0
  ∧ pop (create_heap 1) = Undefined (OutOfBounds (-1)).
Proof.
  assert (Hsz : 1 ≤ size sample_heap) by (vm_compute; discriminate).
  assert (Hv0 : valid (create_heap 1))
    by (apply (bool_decide_unpack _); vm_compute; exact I).
  split; [exact sample_heap_valid | split; [exact Hsz |]].
  split; [exact (proj2 (pop_defined sample_heap sample_heap_valid) Hsz) |].
  split; [exact Hv0 | split; [reflexivity |]].
  exact (proj1 (pop_defined (create_heap 1) Hv0) eq_refl).
Defined.

(** C7 as stated fails: [pop] on a freshly created heap reads slot -1. *)
Lemma pop_empty_undefined :
  size (create_heap 1) = 0
  ∧ pop (create_heap 1) = Undefined (OutOfBounds (-1)).
Proof. split; reflexivity. Qed.

(** C8, as the code has it.  On a heap with [size = capacity], [insert]
    writes slot [capacity], one past the storage; with [size < capacity] it
    stores the node and raises [size] by one. *)
Theorem insert_defined h x :
  valid h →
  (size h = capacity h → insert h x = Undefined (OutOfBounds (size h)))
  ∧ (size h < capacity h →
     ∃ h', insert h x = Ret h'
       ∧ size h' = size h + 1
       ∧ contents h' ≡ₚ Ptr x :: contents h).
Proof.
  intros Hvalid. pose proof Hvalid as (_ & Hcap & _). split.
  - intros Hfull. apply insert_full; [done | lia].
  - intros Hroom. destruct (insert_spec h x Hvalid)
      as (h' & Heq & Hsz & _ & _ & _ & Hperm & _); [lia|].
    by exists h'.
Qed.

Lemma insert_defined_sample :
  valid sample_heap ∧ size sample_heap < capacity sample_heap
  ∧ (∃ h', insert sample_heap (leaf 1) = Ret h'
       ∧ size h' = size sample_heap + 1
       ∧ contents h' ≡ₚ Ptr (leaf 1) :: contents sample_heap)
  ∧ valid full_heap ∧ size full_heap = capacity full_heap
  ∧ insert full_heap (leaf 1) = Undefined (OutOfBounds (size full_heap)).
Proof.
  assert (Hroom : size sample_heap < capacity sample_heap) by reflexivity.
  assert (Hv1 : valid full_heap)
    by (apply (bool_decide_unpack _); vm_compute; exact I).
  split; [exact sample_heap_valid | split; [exact Hroom |]].
  split; [exact (proj2 (insert_defined sample_heap (leaf 1) sample_heap_valid) Hroom) |].
  split; [exact Hv1 | split; [reflexivity |]].
  exact (proj1 (insert_defined full_heap (leaf 1) Hv1) eq_refl).
Defined.

(** C8 as stated fails: [insert] on a full heap writes past the storage. *)
Lemma insert_full_undefined :
  size full_heap = capacity full_heap
  ∧ insert full_heap (leaf 1) = Undefined (OutOfBounds 1).
Proof. split; reflexivity. Qed.

(** C9.  Two runs of [build] on the same input return the same tree; and
    when the two children of [index] tie in weight below the weight at
    [index], [heapify] swaps with the left child and continues there. *)
Theorem build_deterministic symbols r1 r2 h index l r p :
  build symbols = r1 → build symbols = r2 →
  valid h → 0 ≤ index → 2 * index + 2 < size h →
  read (array h) (2 * index + 1) = Ret (Ptr l) →
  read (array h) (2 * index + 2) = Ret (Ptr r) →
  read (array h) index = Ret (Ptr p) →
  freq l = freq r → freq l < freq p →
  r1 = r2
  ∧ ∃ arr h',
      swap_node (array h) (2 * index + 1) index = Ret arr
      ∧ heapify (set_array h arr) (2 * index + 1) = Ret h'
      ∧ heapify h index = Ret h'.
Proof.
  intros H1 H2 Hvalid Hidx Hsz Hl Hr Hp Htie Hlt. split; [congruence|].
  by apply (heapify_tie_left h index l r p).
Qed.

Lemma tie_heap_valid : valid tie_heap.
Proof. apply (bool_decide_unpack _). vm_compute. exact I. Defined.

Lemma build_deterministic_sample :
  valid tie_heap
  ∧ read (array tie_heap) 1 = Ret (Ptr (leaf 3))
  ∧ read (array tie_heap) 2 = Ret (Ptr (leaf 3))
  ∧ read (array tie_heap) 0 = Ret (Ptr (leaf 7))
  ∧ build sample_symbols = build sample_symbols
  ∧ ∃ arr h',
      swap_node (array tie_heap) 1 0 = Ret arr
      ∧ heapify (set_array tie_heap arr) 1 = Ret h'
      ∧ heapify tie_heap 0 = Ret h'.
Proof.
  split; [exact tie_heap_valid |]. do 3 (split; [reflexivity |]).
  apply (build_deterministic sample_symbols _ _ tie_heap 0
           (leaf 3) (leaf 3) (leaf 7));
    try reflexivity; try exact tie_heap_valid; vm_compute; congruence.
Defined.

(** * Further properties of the code *)

(** ** [swap_node] *)

Lemma write_Ret_inv {A} (a : list A) i x a' :
  write a i x = Ret a' →
  0 ≤ i < Z.of_nat (length a) ∧ a' = <[Z.to_nat i := x]> a.
Proof. unfold write. case_decide; [|done]. by intros [= <-]. Qed.

Lemma swap_node_Ret_inv arr a b arr' :
  swap_node arr a b = Ret arr' →
  0 ≤ a < Z.of_nat (length arr) ∧ 0 ≤ b < Z.of_nat (length arr)
  ∧ arr' = swapped arr a b.
Proof.
  unfold swap_node.
  intros (t & [Ha Ht]%read_Ret_sel & (vb & [Hb Hvb]%read_Ret_sel &
    (arr1 & [_ ->]%write_Ret_inv & [_ ->]%write_Ret_inv)%bind_Ret_inv)
    %bind_Ret_inv)%bind_Ret_inv.
  subst. done.
Qed.




(** ** What an operation that returns has done, on any heap *)

Lemma heapify_rec_frame fuel : ∀ h index h',
  heapify_rec fuel h index = Ret h' →
  size h' = size h ∧ capacity h' = capacity h
  ∧ length (array h') = length (array h)
  ∧ ∀ j, 0 ≤ j → j < index ∨ size h ≤ j → sel (array h') j = sel (array h) j.
Proof.
  induction fuel as [|fuel IH]; intros h index h'; [done|].
  cbn [heapify_rec].
  intros (l2 & ->%int_Ret_inv & (left & ->%int_Ret_inv &
    (r2 & ->%int_Ret_inv & (right & ->%int_Ret_inv &
    (s1 & Hs1 & (s2 & Hs2 & Hrest)%bind_Ret_inv)%bind_Ret_inv)
    %bind_Ret_inv)%bind_Ret_inv)%bind_Ret_inv)%bind_Ret_inv.
  apply (proj2 (select_child _ _ _ _)) in Hs1.
  apply (proj2 (select_child _ _ _ _)) in Hs2.
  destruct (decide (s2 ≠ index)) as [Hne|He]; [|by injection Hrest as <-].
  apply bind_Ret_inv in Hrest as (arr & (Hc & Hi & ->)%swap_node_Ret_inv & Hrec).
  apply IH in Hrec as (Hsz & Hcap & Hlen & Hframe). simpl in *.
  split; [done|]. split; [done|].
  split; [by rewrite Hlen, length_swapped|].
  intros j Hj0 Hj. rewrite Hframe by lia.
  rewrite sel_swapped by lia. repeat case_decide; (done || lia).
Qed.

(** X2. [heapify] changes only slots from [index] up to [size]: the slots
    before [index] and those from [size] on are as before, and [size],
    [capacity] and the number of slots are unchanged. *)
Theorem heapify_frame h index h' :
  heapify h index = Ret h' →
  size h' = size h ∧ capacity h' = capacity h
  ∧ length (array h') = length (array h)
  ∧ ∀ j, j < index ∨ size h ≤ j → read (array h') j = read (array h) j.
Proof.
  intros (Hsz & Hcap & Hlen & Hframe)%heapify_rec_frame.
  split; [done|]. split; [done|]. split; [done|].
  intros j Hj. unfold read. case_decide; [|done].
  specialize (Hframe j ltac:(done) Hj). unfold sel in Hframe.
  destruct (array h' !! Z.to_nat j) eqn:E1, (array h !! Z.to_nat j) eqn:E2;
    simpl in Hframe; subst; try done.
  - apply lookup_lt_Some in E1. apply lookup_ge_None in E2. lia.
  - apply lookup_lt_Some in E2. apply lookup_ge_None in E1. lia.
Qed.

Lemma heapify_frame_sample :
  heapify unordered_heap 0
  = Ret (Heap 3 3 [Ptr (leaf 5); Ptr (leaf 9); Ptr (leaf 7)])
  ∧ size (Heap 3 3 [Ptr (leaf 5); Ptr (leaf 9); Ptr (leaf 7)])
    = size unordered_heap.
Proof.
  assert (H : heapify unordered_heap 0
              = Ret (Heap 3 3 [Ptr (leaf 5); Ptr (leaf 9); Ptr (leaf 7)]))
    by reflexivity.
  split; [exact H |]. exact (proj1 (heapify_frame _ _ _ H)).
Defined.

Lemma insert_loop_Ret_inv x fuel : ∀ arr i arr' i',
  insert_loop fuel arr x i = Ret (arr', i') →
  0 ≤ i' ≤ i ∧ length arr' = length arr
  ∧ (i' = i ∨ i < Z.of_nat (length arr)).
Proof.
  induction fuel as [|fuel IH]; intros arr i arr' i'; [done|].
  cbn [insert_loop]. destruct (decide (i ≠ 0)) as [Hi0|Hi0].
  - intros (i1 & ->%int_Ret_inv & (fp & Hfp%freq_at_Ret_inv & Hrest)
      %bind_Ret_inv)%bind_Ret_inv.
    assert (Hi : 1 ≤ i).
    { destruct (decide (i - 1 < 0)) as [Hneg|]; [|lia].
      pose proof (quot2_neg (i - 1) Hneg). lia. }
    destruct (parent_index i Hi) as [Hp _].
    case_decide.
    + apply bind_Ret_inv in Hrest as (parent & _ & Hrest).
      apply bind_Ret_inv in Hrest as (arr1 & [Hw ->]%write_Ret_inv & Hrec).
      apply IH in Hrec as (Hi' & Hlen & _).
      rewrite length_insert in Hlen. split; [lia|]. split; [done|]. right. lia.
    + injection Hrest as <- <-. split; [lia|]. split; [done|]. by left.
  - intros [= <- <-]. split; [lia|]. split; [done|]. by left.
Qed.

(** X3. An [insert] that returns has written inside the array: the heap
    had [0 <= size < ] number of slots, [size] has grown by one, and
    [capacity] and the number of slots are unchanged.  This holds for
    every heap, whatever its slots hold. *)
Theorem insert_in_bounds h x h' :
  insert h x = Ret h' →
  0 ≤ size h < Z.of_nat (length (array h))
  ∧ size h' = size h + 1 ∧ capacity h' = capacity h
  ∧ length (array h') = length (array h).
Proof.
  unfold insert.
  intros (sz & ->%int_Ret_inv & (i & ->%int_Ret_inv & ([arr i'] & Hloop &
    (arr' & [Hw ->]%write_Ret_inv & [= <-])%bind_Ret_inv)%bind_Ret_inv)
    %bind_Ret_inv)%bind_Ret_inv.
  apply insert_loop_Ret_inv in Hloop as (Hi' & Hlen & Hor). simpl.
  rewrite length_insert, Hlen. rewrite Hlen in Hw.
  split; [lia|]. split; [lia|]. done.
Qed.

Lemma insert_in_bounds_sample :
  insert sample_heap (leaf 1)
  = Ret (Heap 4 4 [Ptr (leaf 1); Ptr (leaf 5); Ptr (leaf 5); Ptr (leaf 9)])
  ∧ 0 ≤ size sample_heap < Z.of_nat (length (array sample_heap)).
Proof.
  assert (H : insert sample_heap (leaf 1)
              = Ret (Heap 4 4 [Ptr (leaf 1); Ptr (leaf 5); Ptr (leaf 5);
                                Ptr (leaf 9)])) by reflexivity.
  split; [exact H |]. exact (proj1 (insert_in_bounds _ _ _ H)).
Defined.

(** X4. A [pop] that returns has read inside the array: the heap had
    [1 <= size <= ] number of slots, the pointer returned is the one slot 0
    held, [size] has shrunk by one, and [capacity] and the number of slots
    are unchanged.  This holds for every heap, whatever its slots hold. *)
Theorem pop_in_bounds h h' p :
  pop h = Ret (h', p) →
  1 ≤ size h ≤ Z.of_nat (length (array h))
  ∧ read (array h) 0 = Ret p
  ∧ size h' = size h - 1 ∧ capacity h' = capacity h
  ∧ length (array h') = length (array h).
Proof.
  unfold pop.
  intros (temp & Htemp & (last_i & ->%int_Ret_inv &
    (last & [Hlast _]%read_Ret_sel &
    (arr & [_ ->]%write_Ret_inv & (sz & ->%int_Ret_inv &
    (h1 & (Hsz & Hcap & Hlen & _)%heapify_rec_frame & [= <- <-])
    %bind_Ret_inv)%bind_Ret_inv)%bind_Ret_inv)%bind_Ret_inv)%bind_Ret_inv)
    %bind_Ret_inv.
  simpl in *. rewrite length_insert in Hlen.
  split; [lia|]. done.
Qed.

Lemma pop_in_bounds_sample :
  pop sample_heap
  = Ret (Heap 2 4 [Ptr (leaf 5); Ptr (leaf 9); Ptr (leaf 5); Junk], Ptr (leaf 5))
  ∧ 1 ≤ size sample_heap ≤ Z.of_nat (length (array sample_heap)).
Proof.
  assert (H : pop sample_heap
              = Ret (Heap 2 4 [Ptr (leaf 5); Ptr (leaf 9); Ptr (leaf 5); Junk],
                     Ptr (leaf 5))) by reflexivity.
  split; [exact H |]. exact (proj1 (pop_in_bounds _ _ _ H)).
Defined.

(** X5. [pop] does not clear the slot it vacates: after a [pop] on a heap
    of two or more nodes, slot [size - 1] of the old heap lies outside the
    new heap and still holds the last node, which is also among the nodes
    in use. *)
Theorem pop_keeps_vacated_slot h :
  valid h → 2 ≤ size h →
  ∃ h' p last,
    pop h = Ret (h', p)
    ∧ size h' = size h - 1
    ∧ read (array h) (size h - 1) = Ret last
    ∧ read (array h') (size h - 1) = Ret last
    ∧ last ∈ contents h'.
Proof.
  intros Hvalid Hsz.
  pose proof Hvalid as [(Hsize & Hmax & Hp) Hcap]%valid_live.
  destruct (pop_spec h Hvalid)
    as (h' & n & Hpop & [_ Hn]%read_Ret_sel & Hsz' & _ & Hlen & _ & Hperm & _);
    [lia|].
  exists h', (Ptr n), (sel (array h) (size h - 1)).
  split; [done|]. split; [done|]. split; [by rewrite read_sel by lia|].
  split.
  - pose proof Hpop as Hpop'. unfold pop in Hpop'.
    rewrite read_sel in Hpop' by lia. rewrite bind_Ret in Hpop'.
    rewrite int_Ret in Hpop' by int_range. rewrite bind_Ret in Hpop'.
    rewrite read_sel in Hpop' by lia. rewrite bind_Ret in Hpop'.
    rewrite write_Ret in Hpop' by lia. rewrite !bind_Ret in Hpop'.
    apply bind_Ret_inv in Hpop' as (h1 & Hh1 & [= <- _]).
    apply heapify_rec_frame in Hh1 as (_ & _ & Hlen1 & Hframe). simpl in *.
    rewrite read_sel by lia. f_equal.
    rewrite Hframe by lia. apply sel_insert_ne; lia.
  - assert (Hc : contents h = Ptr n :: drop 1 (contents h)).
    { unfold contents. rewrite <- Hn.
      replace (Z.to_nat (size h)) with (S (Z.to_nat (size h - 1))) by lia.
      destruct (array h) as [|q a] eqn:Ea; simpl in *; [lia|]. by rewrite drop_0. }
    rewrite Hc in Hperm. apply Permutation_cons_inv in Hperm.
    rewrite <- Hperm. apply list_elem_of_lookup.
    exists (Z.to_nat (size h - 1) - 1)%nat.
    rewrite lookup_drop. unfold contents. rewrite lookup_take_lt by lia.
    replace (1 + (Z.to_nat (size h - 1) - 1))%nat
      with (Z.to_nat (size h - 1)) by lia.
    apply sel_lookup. lia.
Qed.

Lemma pop_keeps_vacated_slot_sample :
  valid sample_heap ∧ 2 ≤ size sample_heap
  ∧ ∃ h' p last,
      pop sample_heap = Ret (h', p)
      ∧ size h' = size sample_heap - 1
      ∧ read (array sample_heap) (size sample_heap - 1) = Ret last
      ∧ read (array h') (size sample_heap - 1) = Ret last
      ∧ last ∈ contents h'.
Proof.
  assert (Hsz : 2 ≤ size sample_heap) by (vm_compute; discriminate).
  split; [exact sample_heap_valid | split; [exact Hsz |]].
  exact (pop_keeps_vacated_slot sample_heap sample_heap_valid Hsz).
Defined.

(** X6. [insert] compares with strict [<]: a node that is not lighter
    than the node at the parent of the first free slot (or any node, on an
    empty heap) is stored in that slot and no other slot changes. *)
Theorem insert_appends h x :
  valid h → size h < capacity h →
  (size h = 0
   ∨ ∃ n, read (array h) ((size h - 1) `quot` 2) = Ret (Ptr n)
          ∧ freq n ≤ freq x) →
  insert h x
  = Ret (Heap (size h + 1) (capacity h)
           (<[Z.to_nat (size h) := Ptr x]> (array h))).
Proof.
  intros Hvalid Hroom Hparent.
  pose proof Hvalid as [(Hsize & Hmax & Hp) Hcap]%valid_live.
  unfold insert.
  rewrite int_Ret by int_range. rewrite bind_Ret.
  rewrite int_Ret by int_range. rewrite bind_Ret.
  replace (size h + 1 - 1) with (size h) by lia.
  cbn [insert_loop].
  destruct (decide (size h ≠ 0)) as [Hne|He].
  - destruct Hparent as [?|(n & Hread & Hle)]; [done|].
    rewrite int_Ret by int_range. rewrite bind_Ret.
    unfold freq_at. rewrite Hread. simpl.
    rewrite decide_False by lia. simpl.
    rewrite write_Ret by lia. done.
  - rewrite bind_Ret. rewrite write_Ret by lia. done.
Qed.

Lemma insert_appends_sample :
  valid sample_heap ∧ size sample_heap < capacity sample_heap
  ∧ read (array sample_heap) ((size sample_heap - 1) `quot` 2)
    = Ret (Ptr (leaf 9))
  ∧ insert sample_heap (leaf 9)
    = Ret (Heap 4 4 [Ptr (leaf 5); Ptr (leaf 9); Ptr (leaf 5); Ptr (leaf 9)]).
Proof.
  assert (Hroom : size sample_heap < capacity sample_heap) by reflexivity.
  assert (Hread : read (array sample_heap) ((size sample_heap - 1) `quot` 2)
                  = Ret (Ptr (leaf 9))) by reflexivity.
  split; [exact sample_heap_valid | split; [exact Hroom | split; [exact Hread |]]].
  apply (insert_appends sample_heap (leaf 9) sample_heap_valid Hroom).
  right. exists (leaf 9). split; [exact Hread | reflexivity].
Defined.

(** ** Heaps already in order *)

Lemma heapify_rec_settled fuel a sz cap index :
  live a sz → 0 ≤ index < MAX_SLOTS → heap_at a sz index →
  heapify_rec (S fuel) (Heap sz cap a) index = Ret (Heap sz cap a).
Proof.
  intros (Hsz & Hmax & Hp) Hidx [Hl Hr]. cbn [heapify_rec].
  rewrite (int_Ret (2 * index)) by int_range. rewrite bind_Ret.
  rewrite (int_Ret (2 * index + 1)) by int_range. rewrite !bind_Ret.
  rewrite (int_Ret (2 * index + 2)) by int_range. rewrite bind_Ret.
  cbn [size array].
  destruct (decide (2 * index + 1 < sz)) as [Hlt|Hge].
  - rewrite (freq_at_wt a (2 * index + 1)) by (try apply Hp; lia).
    rewrite (freq_at_wt a index) by (try apply Hp; lia).
    do 2 rewrite bind_Ret. rewrite decide_False by (specialize (Hl Hlt); lia).
    rewrite bind_Ret.
    destruct (decide (2 * index + 2 < sz)) as [Hlt2|Hge2].
    + rewrite (freq_at_wt a (2 * index + 2)) by (try apply Hp; lia).
      rewrite (freq_at_wt a index) by (try apply Hp; lia).
      do 2 rewrite bind_Ret. rewrite decide_False by (specialize (Hr Hlt2); lia).
      rewrite bind_Ret. by rewrite decide_False by lia.
    + rewrite bind_Ret. by rewrite decide_False by lia.
  - rewrite bind_Ret. rewrite decide_False by lia. rewrite bind_Ret.
    by rewrite decide_False by lia.
Qed.

Lemma build_min_heap_loop_settled fuel : ∀ h i,
  valid h → heap_property h → i < MAX_SLOTS → (Z.to_nat (i + 1) < fuel)%nat →
  build_min_heap_loop fuel h i = Ret h.
Proof.
  induction fuel as [|fuel IH]; intros h i Hvalid Hheap Hi Hfuel; [lia|].
  cbn [build_min_heap_loop]. case_decide; [|done].
  pose proof Hvalid as [Hlive _]%valid_live.
  pose proof Hheap as Hfrom. apply heap_property_from in Hfrom; [|done].
  assert (Hh : heapify h i = Ret h).
  { unfold heapify. destruct h as [sz cap a]. cbn [size array] in *.
    apply heapify_rec_settled; [done | lia | apply Hfrom; lia]. }
  rewrite Hh, bind_Ret. rewrite int_Ret by int_range. rewrite bind_Ret.
  apply IH; (done || lia).
Qed.

(** X7. [build_min_heap] leaves a heap that is already in heap order
    exactly as it is; so running it a second time changes nothing. *)
Theorem build_min_heap_idempotent h :
  valid h →
  ∃ h1, build_min_heap h = Ret h1
    ∧ build_min_heap h1 = Ret h1
    ∧ (heap_property h → h1 = h).
Proof.
  intros Hvalid.
  assert (Hsettled : ∀ g, valid g → heap_property g → build_min_heap g = Ret g).
  { intros g Hv Hh. pose proof Hv as [(Hsz & Hmax & _) _]%valid_live.
    unfold build_min_heap.
    rewrite int_Ret by int_range. rewrite bind_Ret.
    rewrite int_Ret by int_range. rewrite bind_Ret.
    assert (Hq : (size g - 1 - 1) `quot` 2 < size g).
    { destruct (decide (0 ≤ size g - 1 - 1)).
      - pose proof (quot2_nonneg (size g - 1 - 1)). lia.
      - pose proof (quot2_neg (size g - 1 - 1)). lia. }
    apply build_min_heap_loop_settled; (done || int_range || lia). }
  destruct (build_min_heap_spec h Hvalid)
    as (h1 & Heq & _ & _ & _ & Hv1 & _ & Hheap1).
  exists h1. split; [done|]. split; [by apply Hsettled|].
  intros Hheap. rewrite (Hsettled h Hvalid Hheap) in Heq. by injection Heq.
Qed.

Lemma unordered_heap_valid : valid unordered_heap.
Proof. apply (bool_decide_unpack _). vm_compute. exact I. Defined.

Lemma build_min_heap_idempotent_sample :
  valid unordered_heap
  ∧ ∃ h1, build_min_heap unordered_heap = Ret h1
      ∧ build_min_heap h1 = Ret h1
      ∧ (heap_property unordered_heap → h1 = unordered_heap).
Proof.
  split; [exact unordered_heap_valid |].
  exact (build_min_heap_idempotent unordered_heap unordered_heap_valid).
Defined.

(** ** The heap as a priority queue *)

(** X8. Heap sort: [build_min_heap] on the slots in use, in any order,
    followed by [size] calls of [pop] returns the nodes in non-decreasing
    order of weight, each node once, and leaves the heap empty. *)
Theorem build_min_heap_then_pop_sorts h :
  valid h →
  ∃ h1 h2 ps,
    build_min_heap h = Ret h1
    ∧ pop_many (Z.to_nat (size h)) h1 = Ret (h2, ps)
    ∧ size h2 = 0
    ∧ ps ≡ₚ contents h
    ∧ StronglySorted Z.le (weight <$> ps).
Proof.
  intros Hvalid. pose proof Hvalid as (Hsz & _).
  destruct (build_min_heap_spec h Hvalid)
    as (h1 & Heq & Hsz1 & _ & _ & Hv1 & Hperm1 & Hheap1).
  destruct (pop_many_spec (Z.to_nat (size h)) h1 Hv1 Hheap1)
    as (h2 & ps & Hpops & _ & _ & Hsz2 & _ & Hperm2 & Hsorted); [lia|].
  exists h1, h2, ps. split; [done|]. split; [done|]. split; [lia|].
  split; [|done]. rewrite <- Hperm1, Hperm2. unfold contents.
  replace (Z.to_nat (size h2)) with 0%nat by lia.
  by rewrite take_0, app_nil_r.
Qed.

Lemma build_min_heap_then_pop_sorts_sample :
  valid unordered_heap
  ∧ ∃ h1 h2 ps,
      build_min_heap unordered_heap = Ret h1
      ∧ pop_many (Z.to_nat (size unordered_heap)) h1 = Ret (h2, ps)
      ∧ size h2 = 0
      ∧ ps ≡ₚ contents unordered_heap
      ∧ StronglySorted Z.le (weight <$> ps).
Proof.
  split; [exact unordered_heap_valid |].
  exact (build_min_heap_then_pop_sorts unordered_heap unordered_heap_valid).
Defined.

Lemma insert_many_spec xs : ∀ h,
  valid h → size h + Z.of_nat (length xs) ≤ Z.of_nat (length (array h)) →
  ∃ h', insert_many xs h = Ret h'
    ∧ size h' = size h + Z.of_nat (length xs)
    ∧ capacity h' = capacity h
    ∧ length (array h') = length (array h)
    ∧ valid h'
    ∧ contents h' ≡ₚ (Ptr <$> xs) ++ contents h
    ∧ (heap_property h → heap_property h').
Proof.
  induction xs as [|x xs IH]; intros h Hvalid Hroom.
  - exists h. simpl. split; [done|]. split; [lia|]. done.
  - simpl in Hroom.
    destruct (insert_spec h x Hvalid)
      as (h1 & Heq & Hsz1 & Hcap1 & Hlen1 & Hv1 & Hperm1 & Hheap1); [lia|].
    destruct (IH h1 Hv1) as (h' & Heq' & Hsz' & Hcap' & Hlen' & Hv' & Hperm' & Hheap').
    { rewrite Hlen1. lia. }
    exists h'. cbn [insert_many]. rewrite Heq, bind_Ret.
    split; [done|]. split; [simpl; lia|]. split; [congruence|].
    split; [congruence|]. split; [done|]. split; [|auto].
    rewrite Hperm', Hperm1. simpl. by rewrite Permutation_middle.
Qed.

Lemma create_heap_valid cap :
  0 ≤ cap ≤ MAX_SLOTS →
  valid (create_heap cap) ∧ heap_property (create_heap cap)
  ∧ Z.of_nat (length (array (create_heap cap))) = cap.
Proof.
  intros Hcap. unfold create_heap.
  rewrite to_unsigned_small by (unfold UINT_MAX; int_range).
  split; [|split].
  - unfold valid, contents; simpl. rewrite length_replicate.
    split; [lia|]. split; [lia|]. split; [lia|]. constructor.
  - intros i c n m Hi Hc Hsz. simpl in Hsz. lia.
  - simpl. rewrite length_replicate. lia.
Qed.

(** X9. A heap made by [create_heap capacity] takes any list of at most
    [capacity] nodes through [insert]; popping them all then returns the
    inserted nodes, each once, in non-decreasing order of weight. *)
Theorem create_insert_pop_sorts cap xs :
  0 ≤ cap ≤ MAX_SLOTS → Z.of_nat (length xs) ≤ cap →
  ∃ h1 h2 ps,
    insert_many xs (create_heap cap) = Ret h1
    ∧ size h1 = Z.of_nat (length xs)
    ∧ pop_many (length xs) h1 = Ret (h2, ps)
    ∧ size h2 = 0
    ∧ ps ≡ₚ Ptr <$> xs
    ∧ StronglySorted Z.le (weight <$> ps).
Proof.
  intros Hcap Hlen.
  destruct (create_heap_valid cap Hcap) as (Hv0 & Hh0 & Hlen0).
  destruct (insert_many_spec xs (create_heap cap) Hv0)
    as (h1 & Heq & Hsz1 & _ & _ & Hv1 & Hperm1 & Hheap1).
  { rewrite Hlen0. simpl. lia. }
  simpl in Hsz1.
  destruct (pop_many_spec (length xs) h1 Hv1 (Hheap1 Hh0))
    as (h2 & ps & Hpops & _ & _ & Hsz2 & _ & Hperm2 & Hsorted); [lia|].
  exists h1, h2, ps. split; [done|]. split; [lia|]. split; [done|].
  split; [lia|]. split; [|done].
  assert (Hc0 : contents (create_heap cap) = []) by (unfold contents; by simpl).
  assert (Hc2 : contents h2 = []).
  { unfold contents. replace (Z.to_nat (size h2)) with 0%nat by lia. by rewrite take_0. }
  rewrite Hc0, app_nil_r in Hperm1. rewrite Hc2, app_nil_r in Hperm2.
  by rewrite <- Hperm2, Hperm1.
Qed.

Lemma create_insert_pop_sorts_sample :
  0 ≤ 3 ≤ MAX_SLOTS ∧ Z.of_nat (length [leaf 9; leaf 5; leaf 7]) ≤ 3
  ∧ ∃ h1 h2 ps,
      insert_many [leaf 9; leaf 5; leaf 7] (create_heap 3) = Ret h1
      ∧ size h1 = Z.of_nat (length [leaf 9; leaf 5; leaf 7])
      ∧ pop_many (length [leaf 9; leaf 5; leaf 7]) h1 = Ret (h2, ps)
      ∧ size h2 = 0
      ∧ ps ≡ₚ Ptr <$> [leaf 9; leaf 5; leaf 7]
      ∧ StronglySorted Z.le (weight <$> ps).
Proof.
  assert (Hcap : 0 ≤ 3 ≤ MAX_SLOTS) by (vm_compute; split; discriminate).
  assert (Hlen : Z.of_nat (length [leaf 9; leaf 5; leaf 7]) ≤ 3)
    by (vm_compute; discriminate).
  split; [exact Hcap | split; [exact Hlen |]].
  exact (create_insert_pop_sorts 3 [leaf 9; leaf 5; leaf 7] Hcap Hlen).
Defined.

(** X10. [pop] right after [insert]: on a heap in heap order with a free
    slot, the node popped is not heavier than the inserted node nor than
    any node the heap held, the heap is back at its old size and still in
    heap order, and no node is lost; on an empty heap the node popped is
    the inserted one. *)
Theorem insert_then_pop h x :
  valid h → heap_property h → size h < capacity h →
  ∃ h1 h2 n,
    insert h x = Ret h1
    ∧ pop h1 = Ret (h2, Ptr n)
    ∧ size h2 = size h
    ∧ valid h2 ∧ heap_property h2
    ∧ freq n ≤ freq x
    ∧ (∀ m, Ptr m ∈ contents h → freq n ≤ freq m)
    ∧ Ptr x :: contents h ≡ₚ Ptr n :: contents h2
    ∧ (size h = 0 → n = x).
Proof.
  intros Hvalid Hheap Hroom. pose proof Hvalid as (Hsz & Hcap & _).
  destruct (insert_spec h x Hvalid)
    as (h1 & Heq & Hsz1 & _ & _ & Hv1 & Hperm1 & Hheap1); [lia|].
  destruct (pop_min h1 Hv1 (Hheap1 Hheap))
    as (h2 & n & Hpop & Hv2 & Hheap2 & Hsz2 & Hperm2 & Hmin); [lia|].
  exists h1, h2, n. split; [done|]. split; [done|]. split; [lia|].
  split; [done|]. split; [done|].
  split; [|split; [|split]].
  - apply (Hmin (Ptr x)). rewrite Hperm1. apply elem_of_cons. by left.
  - intros m Hm. apply (Hmin (Ptr m)). rewrite Hperm1.
    apply elem_of_cons. by right.
  - by rewrite <- Hperm1, Hperm2.
  - intros H0. rewrite Hperm1 in Hperm2. unfold contents in Hperm2.
    replace (Z.to_nat (size h)) with 0%nat in Hperm2 by lia.
    replace (Z.to_nat (size h2)) with 0%nat in Hperm2 by lia.
    rewrite !take_0 in Hperm2.
    apply Permutation_singleton_l in Hperm2. by injection Hperm2.
Qed.

Lemma insert_then_pop_sample :
  valid sample_heap ∧ heap_property sample_heap
  ∧ size sample_heap < capacity sample_heap
  ∧ ∃ h1 h2 n,
      insert sample_heap (leaf 1) = Ret h1
      ∧ pop h1 = Ret (h2, Ptr n)
      ∧ size h2 = size sample_heap
      ∧ valid h2 ∧ heap_property h2
      ∧ freq n ≤ freq (leaf 1)
      ∧ (∀ m, Ptr m ∈ contents sample_heap → freq n ≤ freq m)
      ∧ Ptr (leaf 1) :: contents sample_heap ≡ₚ Ptr n :: contents h2
      ∧ (size sample_heap = 0 → n = leaf 1).
Proof.
  assert (Hroom : size sample_heap < capacity sample_heap) by reflexivity.
  split; [exact sample_heap_valid | split; [exact sample_heap_property |]].
  split; [exact Hroom |].
  exact (insert_then_pop sample_heap (leaf 1) sample_heap_valid
           sample_heap_property Hroom).
Defined.

(** ** The merge loop on a heap in heap order *)

Lemma merge_step_min h :
  valid h → heap_property h → 2 ≤ size h →
  ∃ h' l r rest, merge_step h = Ret h'
    ∧ size h' = size h - 1
    ∧ valid h' ∧ heap_property h'
    ∧ contents h ≡ₚ Ptr l :: Ptr r :: rest
    ∧ contents h' ≡ₚ Ptr (merge_node l r) :: rest
    ∧ freq l ≤ freq r
    ∧ ∀ p, p ∈ rest → freq r ≤ weight p.
Proof.
  intros Hvalid Hheap Hsz.
  destruct (pop_min h Hvalid Hheap)
    as (h1 & l & Hpop1 & Hv1 & Hheap1 & Hsz1 & Hperm1 & Hmin1); [lia|].
  destruct (pop_min h1 Hv1 Hheap1)
    as (h2 & r & Hpop2 & Hv2 & Hheap2 & Hsz2 & Hperm2 & Hmin2); [lia|].
  destruct (pop_spec h Hvalid) as (? & ? & Hpop1' & _ & _ & _ & Hlen1 & _); [lia|].
  rewrite Hpop1 in Hpop1'. injection Hpop1' as <- <-.
  destruct (pop_spec h1 Hv1) as (? & ? & Hpop2' & _ & _ & _ & Hlen2 & _); [lia|].
  rewrite Hpop2 in Hpop2'. injection Hpop2' as <- <-.
  destruct (insert_spec h2 (merge_node l r) Hv2)
    as (h' & Hins & Hsz' & _ & _ & Hv' & Hperm' & Hheap').
  { destruct Hvalid as (? & _). lia. }
  exists h', l, r, (contents h2). unfold merge_step.
  rewrite Hpop1, bind_Ret. rewrite Hpop2, bind_Ret. simpl.
  rewrite <- merge_node_links.
  split; [done|]. split; [lia|]. split; [done|]. split; [auto|].
  split; [by rewrite Hperm1, Hperm2|]. split; [done|]. split.
  - apply (Hmin1 (Ptr r)). rewrite Hperm1, Hperm2.
    apply elem_of_cons. right. apply elem_of_cons. by left.
  - intros p Hp. apply Hmin2. rewrite Hperm2. apply elem_of_cons. by right.
Qed.

(** X11. One iteration of the loop of [build_huffman_tree], on a heap in
    heap order with two or more nodes, removes two nodes [l] and [r] that
    are the lightest ([l] not heavier than [r], [r] not heavier than any
    node left) and puts back one node with [l] as left child, [r] as right
    child and the [unsigned] sum of their weights; the heap stays in heap
    order. *)
Theorem merge_step_takes_two_lightest h :
  valid h → heap_property h → 2 ≤ size h →
  ∃ h' l r rest top,
    merge_step h = Ret h'
    ∧ contents h ≡ₚ Ptr l :: Ptr r :: rest
    ∧ freq l ≤ freq r
    ∧ (∀ m, Ptr m ∈ rest → freq r ≤ freq m)
    ∧ contents h' ≡ₚ Ptr top :: rest
    ∧ left_p top = Some l ∧ right_p top = Some r
    ∧ freq top = uadd (freq l) (freq r)
    ∧ size h' = size h - 1
    ∧ valid h' ∧ heap_property h'.
Proof.
  intros Hvalid Hheap Hsz.
  destruct (merge_step_min h Hvalid Hheap Hsz)
    as (h' & l & r & rest & Heq & Hsz' & Hv' & Hheap' & Hc & Hc' & Hle & Hmin).
  exists h', l, r, rest, (merge_node l r).
  split; [done|]. split; [done|]. split; [done|].
  split; [intros m Hm; apply (Hmin (Ptr m) Hm)|].
  done.
Qed.

Lemma merge_step_takes_two_lightest_sample :
  valid sample_heap ∧ heap_property sample_heap ∧ 2 ≤ size sample_heap
  ∧ ∃ h' l r rest top,
      merge_step sample_heap = Ret h'
      ∧ contents sample_heap ≡ₚ Ptr l :: Ptr r :: rest
      ∧ freq l ≤ freq r
      ∧ (∀ m, Ptr m ∈ rest → freq r ≤ freq m)
      ∧ contents h' ≡ₚ Ptr top :: rest
      ∧ left_p top = Some l ∧ right_p top = Some r
      ∧ freq top = uadd (freq l) (freq r)
      ∧ size h' = size sample_heap - 1
      ∧ valid h' ∧ heap_property h'.
Proof.
  assert (Hsz : 2 ≤ size sample_heap) by (vm_compute; discriminate).
  split; [exact sample_heap_valid | split; [exact sample_heap_property |]].
  split; [exact Hsz |].
  exact (merge_step_takes_two_lightest sample_heap sample_heap_valid
           sample_heap_property Hsz).
Defined.

Lemma merge_steps_ordered_inv (I : list slot → Prop) :
  (∀ l l', l ≡ₚ l' → I l → I l') →
  (∀ l r rest, freq l ≤ freq r →
     I (Ptr l :: Ptr r :: rest) → I (Ptr (merge_node l r) :: rest)) →
  ∀ k h, valid h → heap_property h → Z.of_nat k + 1 ≤ size h →
  I (contents h) →
  ∃ hk, merge_steps k h = Ret hk
    ∧ size hk = size h - Z.of_nat k
    ∧ valid hk ∧ heap_property hk
    ∧ I (contents hk).
Proof.
  intros Hperm Hmerge. induction k as [|k IH]; intros h Hvalid Hheap Hsz HI.
  - exists h. simpl. split; [done|]. split; [lia|]. done.
  - destruct (merge_step_min h Hvalid Hheap)
      as (h' & l & r & rest & Heq & Hsz' & Hv' & Hheap' & Hc & Hc' & Hle & _);
      [lia|].
    destruct (IH h' Hv' Hheap') as (hk & Heqk & Hszk & Hvk & Hheapk & HIk).
    + lia.
    + apply (Hperm (Ptr (merge_node l r) :: rest)); [done|].
      apply Hmerge; [done|]. by apply (Hperm (contents h)).
    + exists hk. cbn [merge_steps]. rewrite Heq, bind_Ret.
      split; [done|]. split; [lia|]. done.
Qed.

Lemma build_ordered_inv (I : list slot → Prop) symbols :
  (∀ l l', l ≡ₚ l' → I l → I l') →
  (∀ l r rest, freq l ≤ freq r →
     I (Ptr l :: Ptr r :: rest) → I (Ptr (merge_node l r) :: rest)) →
  symbols ≠ [] → Z.of_nat (length symbols) ≤ MAX_SLOTS →
  I (leaf_slots symbols) →
  ∃ t, build symbols = Ret (Ptr t) ∧ I [Ptr t].
Proof.
  intros Hperm Hmerge Hne Hmax HI.
  assert (1 ≤ Z.of_nat (length symbols)) by (destruct symbols; simpl; [done | lia]).
  destruct (create_and_build_min_heap_spec symbols Hmax)
    as (h0 & Heq & Hsz & Hcap & Hlen & Hv0 & Hc0 & Hheap0).
  destruct (merge_steps_ordered_inv I Hperm Hmerge (Z.to_nat (size h0 - 1)) h0
              Hv0 Hheap0)
    as (h1 & Heq1 & Hsz1 & Hv1 & _ & HI1).
  { lia. }
  { by apply (Hperm (leaf_slots symbols)). }
  destruct (pop_last h1 Hv1) as (h' & t & Hpop & Hc1); [lia|].
  exists t. split; [|by apply (Hperm (contents h1))].
  unfold build, build_huffman_tree, huffman_while.
  rewrite Heq, bind_Ret.
  rewrite huffman_loop_merge_steps by (done || lia).
  rewrite Heq1, bind_Ret. rewrite Hpop. done.
Qed.

(** ** The shape of the tree returned *)

(** X12. In the tree [build] returns, the left child of every internal
    node is not heavier than the right child: the node popped first
    becomes the left child. *)
Theorem build_left_not_heavier symbols :
  symbols ≠ [] → Z.of_nat (length symbols) ≤ MAX_SLOTS →
  ∃ t, build symbols = Ret (Ptr t) ∧ left_not_heavier t.
Proof.
  intros Hne Hmax.
  destruct (build_ordered_inv
              (Forall (fun p => ∀ t, p = Ptr t → left_not_heavier t)) symbols)
    as (t & Hbuild & Hall); try done.
  - intros l l' Hperm Hl. by rewrite <- Hperm.
  - intros l r rest Hle Hall. apply Forall_cons in Hall as [Hl Hall].
    apply Forall_cons in Hall as [Hr Hall].
    constructor; [|done]. intros t [= <-]. simpl.
    split; [done|]. split; [by apply Hl | by apply Hr].
  - unfold leaf_slots. apply Forall_fmap, Forall_true. by intros p t [= <-].
  - exists t. split; [done|]. apply Forall_cons in Hall as [Ht _]. by apply Ht.
Qed.

Lemma build_left_not_heavier_sample :
  sample_symbols ≠ [] ∧ Z.of_nat (length sample_symbols) ≤ MAX_SLOTS
  ∧ ∃ t, build sample_symbols = Ret (Ptr t) ∧ left_not_heavier t.
Proof.
  assert (Hne : sample_symbols ≠ []) by discriminate.
  split; [exact Hne | split; [exact sample_symbols_fit |]].
  exact (build_left_not_heavier sample_symbols Hne sample_symbols_fit).
Defined.

(** X13. The tree [build] returns is a strict binary tree: every node
    has either no child or both children, never just one. *)
Theorem build_full_tree symbols :
  symbols ≠ [] → Z.of_nat (length symbols) ≤ MAX_SLOTS →
  ∃ t, build symbols = Ret (Ptr t) ∧ full_tree t.
Proof.
  intros Hne Hmax.
  destruct (build_inv (Forall (fun p => ∀ t, p = Ptr t → full_tree t)) symbols)
    as (t & Hbuild & Hall); try done.
  - intros l l' Hperm Hl. by rewrite <- Hperm.
  - intros l r rest Hall. apply Forall_cons in Hall as [Hl Hall].
    apply Forall_cons in Hall as [Hr Hall].
    constructor; [|done]. intros t [= <-]. simpl.
    split; [by apply Hl | by apply Hr].
  - unfold leaf_slots. apply Forall_fmap, Forall_true. by intros p t [= <-].
  - exists t. split; [done|]. apply Forall_cons in Hall as [Ht _]. by apply Ht.
Qed.

Lemma build_full_tree_sample :
  sample_symbols ≠ [] ∧ Z.of_nat (length sample_symbols) ≤ MAX_SLOTS
  ∧ ∃ t, build sample_symbols = Ret (Ptr t) ∧ full_tree t.
Proof.
  assert (Hne : sample_symbols ≠ []) by discriminate.
  split; [exact Hne | split; [exact sample_symbols_fit |]].
  exact (build_full_tree sample_symbols Hne sample_symbols_fit).
Defined.

Lemma heap_leaves_Permutation l l' :
  l ≡ₚ l' → heap_leaves l ≡ₚ heap_leaves l'.
Proof.
  induction 1 as [|p l l' _ IH|p q l|l1 l2 l3 _ IH1 _ IH2]; simpl.
  - done.
  - by rewrite IH.
  - rewrite !app_assoc. by rewrite (Permutation_app_comm (slot_leaf_list q)).
  - by rewrite IH1.
Qed.

Lemma heap_leaves_leaf_slots symbols :
  heap_leaves (leaf_slots symbols) = (fun p => new_node p.1 p.2) <$> symbols.
Proof.
  induction symbols as [|[c f] symbols IH]; [done|].
  cbn [leaf_slots fmap list_fmap heap_leaves foldr].
  fold (leaf_slots symbols). fold (heap_leaves (leaf_slots symbols)).
  by rewrite IH.
Qed.

(** X14. The leaves of the tree [build] returns are the nodes [new_node]
    made for the input pairs, one for each pair: the weights of the leaves
    are the input frequencies, as [unsigned] values, none lost and none
    twice. *)
Theorem build_leaves_are_input symbols :
  symbols ≠ [] → Z.of_nat (length symbols) ≤ MAX_SLOTS →
  ∃ t, build symbols = Ret (Ptr t)
    ∧ leaf_list t ≡ₚ (fun p => new_node p.1 p.2) <$> symbols
    ∧ freq <$> leaf_list t ≡ₚ (fun p => to_unsigned p.2) <$> symbols.
Proof.
  intros Hne Hmax.
  set (L := (fun p : ascii * Z => new_node p.1 p.2) <$> symbols).
  destruct (build_inv (fun l => heap_leaves l ≡ₚ L) symbols)
    as (t & Hbuild & Hleaves); try done.
  - intros l l' Hperm Hl. by rewrite <- (heap_leaves_Permutation l l').
  - intros l r rest Hl. rewrite <- Hl. simpl.
    destruct l, r; simpl. by rewrite <- app_assoc.
  - by rewrite heap_leaves_leaf_slots.
  - exists t. split; [done|]. simpl in Hleaves. rewrite app_nil_r in Hleaves.
    split; [done|]. rewrite Hleaves. unfold L.
    rewrite <- list_fmap_compose. done.
Qed.

Lemma build_leaves_are_input_sample :
  sample_symbols ≠ [] ∧ Z.of_nat (length sample_symbols) ≤ MAX_SLOTS
  ∧ ∃ t, build sample_symbols = Ret (Ptr t)
    ∧ leaf_list t ≡ₚ (fun p => new_node p.1 p.2) <$> sample_symbols
    ∧ freq <$> leaf_list t ≡ₚ (fun p => to_unsigned p.2) <$> sample_symbols.
Proof.
  assert (Hne : sample_symbols ≠ []) by discriminate.
  split; [exact Hne | split; [exact sample_symbols_fit |]].
  exact (build_leaves_are_input sample_symbols Hne sample_symbols_fit).
Defined.

Lemma height_le_internal_nodes : ∀ t, (height t ≤ internal_nodes t)%nat.
Proof.
  fix IH 1. intros [i w [l|] [r|]]; simpl.
  - pose proof (IH l). pose proof (IH r). lia.
  - pose proof (IH l). lia.
  - pose proof (IH r). lia.
  - lia.
Qed.

(** X15. The tree [build] returns for [n] pairs has height at most
    [n - 1]: no leaf lies deeper than [n - 1] edges below the root. *)
Theorem build_height_bound symbols :
  symbols ≠ [] → Z.of_nat (length symbols) ≤ MAX_SLOTS →
  ∃ t, build symbols = Ret (Ptr t)
    ∧ (height t ≤ length symbols - 1)%nat.
Proof.
  intros Hne Hmax.
  destruct (build_inv (count_inv (Z.of_nat (length symbols))) symbols)
    as (t & Hbuild & [_ Hi]); try done.
  - apply count_inv_Permutation.
  - apply count_inv_merge.
  - apply count_inv_leaf_slots.
  - exists t. split; [done|]. simpl in Hi.
    pose proof (height_le_internal_nodes t). lia.
Qed.

Lemma build_height_bound_sample :
  sample_symbols ≠ [] ∧ Z.of_nat (length sample_symbols) ≤ MAX_SLOTS
  ∧ ∃ t, build sample_symbols = Ret (Ptr t)
    ∧ (height t ≤ length sample_symbols - 1)%nat.
Proof.
  assert (Hne : sample_symbols ≠ []) by discriminate.
  split; [exact Hne | split; [exact sample_symbols_fit |]].
  exact (build_height_bound sample_symbols Hne sample_symbols_fit).
Defined.

(** ** The contract of [heapify] *)

Lemma ordered_from_heap_from lo h :
  valid h → 0 ≤ lo → ordered_from lo h ↔ heap_from lo (array h) (size h).
Proof.
  intros [(Hsz & Hmax & Hp) _]%valid_live Hlo. unfold ordered_from. split.
  - intros H j Hj.
    assert (Hedge : ∀ c, c = 2 * j + 1 ∨ c = 2 * j + 2 → c < size h →
              wt (array h) j ≤ wt (array h) c).
    { intros c Hc Hcsz.
      destruct (Hp j) as [n Hn]; [lia|]. destruct (Hp c) as [m Hm]; [lia|].
      unfold wt. rewrite Hn, Hm. simpl.
      apply (H j c); try lia; rewrite read_sel by lia; congruence. }
    split; intros; apply Hedge; lia.
  - intros H i c n m Hi Hlo' Hc Hcsz [_ Hn]%read_Ret_sel [_ Hm]%read_Ret_sel.
    destruct (H i Hlo') as [Hl Hr]. unfold wt in Hl, Hr.
    destruct Hc as [-> | ->]; rewrite Hn, Hm in *; simpl in *; auto.
Qed.

(** X16. The contract of [heapify]: when the heap order holds at every
    index after [index], [heapify] at [index] returns a heap in which it
    holds from [index] on, with the same nodes in use. *)
Theorem heapify_restores_order h index :
  valid h → 0 ≤ index < size h → ordered_from (index + 1) h →
  ∃ h', heapify h index = Ret h'
    ∧ valid h'
    ∧ ordered_from index h'
    ∧ contents h' ≡ₚ contents h.
Proof.
  intros Hvalid Hidx Hord.
  pose proof Hvalid as [(Hsz & Hmax & _) _]%valid_live.
  destruct (heapify_spec h index Hvalid)
    as (h' & Heq & Hsize & _ & _ & Hv' & Hperm & Hheap); [lia|].
  exists h'. split; [done|]. split; [done|]. split; [|done].
  apply ordered_from_heap_from; [done | lia |]. rewrite Hsize.
  apply Hheap; [lia|].
  apply ordered_from_heap_from in Hord; [|done | lia]. split.
  - intros j Hj Hne. apply Hord. lia.
  - intros p c Hp Hip. lia.
Qed.

Lemma heapify_restores_order_sample :
  valid unordered_heap ∧ 0 ≤ 0 < size unordered_heap
  ∧ ordered_from (0 + 1) unordered_heap
  ∧ ∃ h', heapify unordered_heap 0 = Ret h'
      ∧ valid h'
      ∧ ordered_from 0 h'
      ∧ contents h' ≡ₚ contents unordered_heap.
Proof.
  assert (Hidx : 0 ≤ 0 < size unordered_heap) by (vm_compute; split; congruence).
  assert (Hord : ordered_from (0 + 1) unordered_heap).
  { intros i c n m Hi Hlo Hc Hcsz. unfold unordered_heap in Hcsz; simpl in Hcsz. lia. }
  split; [exact unordered_heap_valid | split; [exact Hidx | split; [exact Hord |]]].
  exact (heapify_restores_order unordered_heap 0 unordered_heap_valid Hidx Hord).
Defined.

(** ** Inputs [build_huffman_tree] cannot handle *)





Lemma pop_below_one h p :
  array h !! 0%nat = Some p → INT_MIN + 1 ≤ size h ≤ 0 →
  pop h = Undefined (OutOfBounds (size h - 1)).
Proof.
  intros Hp Hsz. unfold pop.
  rewrite (read_lookup _ 0 p) by done. rewrite bind_Ret.
  rewrite int_Ret by int_range. rewrite bind_Ret.
  unfold read at 1. by rewrite decide_False by lia.
Qed.

(** X18. A negative [size] makes [build_huffman_tree] fault: no slot is
    filled, [check_size] is false, and [pop] reads slot [size - 1]; for
    the two smallest values of [int] the subtraction in [build_min_heap]
    overflows first. *)
Theorem build_huffman_tree_negative_size item freq sz :
  INT_MIN ≤ sz < 0 →
  build_huffman_tree item freq sz
  = Undefined (if decide (INT_MIN + 2 ≤ sz) then OutOfBounds (sz - 1)
               else SignedOverflow).
Proof.
  intros Hsize. unfold build_huffman_tree, create_and_build_min_heap.
  cbn [fill_loop]. rewrite decide_False by lia. rewrite bind_Ret.
  unfold build_min_heap. cbn [size].
  destruct (decide (INT_MIN + 2 ≤ sz)) as [Hok|Hlow].
  - rewrite int_Ret by int_range. rewrite bind_Ret.
    rewrite int_Ret by int_range. rewrite bind_Ret.
    assert (Hq : (sz - 1 - 1) `quot` 2 < 0)
      by (pose proof (quot2_neg (sz - 1 - 1)); lia).
    cbn [build_min_heap_loop]. rewrite decide_False by lia. rewrite bind_Ret.
    unfold huffman_while. cbn [size huffman_loop]. unfold check_size. cbn [size].
    rewrite bool_decide_eq_false_2 by lia. cbn [negb].
    assert (Hpos : 0 < to_unsigned sz).
    { unfold to_unsigned. rewrite <- (Z_mod_plus_full sz 1 (UINT_MAX + 1)).
      rewrite Z.mod_small; unfold UINT_MAX; int_range. }
    unfold merge_step. rewrite (pop_below_one _ Junk); [done | | simpl; int_range].
    unfold create_heap; simpl. apply lookup_replicate_2. lia.
  - destruct (decide (sz = INT_MIN)) as [->|Hne]; [done|].
    assert (sz = INT_MIN + 1) as -> by lia. done.
Qed.

Lemma build_huffman_tree_negative_size_sample :
  INT_MIN ≤ -1 < 0
  ∧ build_huffman_tree [] [] (-1) = Undefined (OutOfBounds (-2)).
Proof.
  assert (Hsize : INT_MIN ≤ -1 < 0) by (vm_compute; split; congruence).
  split; [exact Hsize |].
  exact (build_huffman_tree_negative_size [] [] (-1) Hsize).
Defined.

(** ** The symbols *)

Lemma read_same_length {A} (a b : list A) i :
  length a = length b →
  (∃ x y, read a i = Ret x ∧ read b i = Ret y)
  ∨ (read a i = Undefined (OutOfBounds i) ∧ read b i = Undefined (OutOfBounds i)).
Proof.
  intros Hlen. unfold read. case_decide; [|by right].
  destruct (a !! Z.to_nat i) as [x|] eqn:Ea, (b !! Z.to_nat i) as [y|] eqn:Eb.
  - left. by exists x, y.
  - apply lookup_lt_Some in Ea. apply lookup_ge_None in Eb. lia.
  - apply lookup_lt_Some in Eb. apply lookup_ge_None in Ea. lia.
  - by right.
Qed.

Lemma fill_loop_ignores_item item1 item2 freq size fuel : ∀ arr i,
  length item1 = length item2 →
  fill_loop fuel arr item1 freq size i = fill_loop fuel arr item2 freq size i.
Proof.
  induction fuel as [|fuel IH]; intros arr i Hlen; [done|].
  cbn [fill_loop]. case_decide; [|done].
  destruct (read_same_length item1 item2 i Hlen)
    as [(c1 & c2 & -> & ->)|[-> ->]]; [|done].
  rewrite !bind_Ret. destruct (read freq i) as [f| |]; [|done|done].
  rewrite !bind_Ret. unfold new_node.
  destruct (write arr i _) as [arr'| |]; [|done|done].
  rewrite !bind_Ret. destruct (int (i + 1)) as [i'| |]; [|done|done].
  rewrite !bind_Ret. by apply IH.
Qed.

(** X19. The result of [build_huffman_tree] does not depend on the
    symbols: two [item] arrays of the same length give the same result,
    tree or fault, for the same frequencies. *)
Theorem build_huffman_tree_ignores_symbols item1 item2 freq size :
  length item1 = length item2 →
  build_huffman_tree item1 freq size = build_huffman_tree item2 freq size.
Proof.
  intros Hlen. unfold build_huffman_tree, create_and_build_min_heap.
  by rewrite (fill_loop_ignores_item item1 item2).
Qed.

Lemma build_huffman_tree_ignores_symbols_sample :
  length ["a"%char; "b"%char; "c"%char] = length ["x"%char; "y"%char; "z"%char]
  ∧ build_huffman_tree ["a"%char; "b"%char; "c"%char] [5; 9; 12] 3
    = build_huffman_tree ["x"%char; "y"%char; "z"%char] [5; 9; 12] 3.
Proof.
  assert (Hlen : length ["a"%char; "b"%char; "c"%char]
                 = length ["x"%char; "y"%char; "z"%char]) by reflexivity.
  split; [exact Hlen |].
  exact (build_huffman_tree_ignores_symbols _ _ [5; 9; 12] 3 Hlen).
Defined.
